(** * Aztec prover statistics indexer: a shallow embedding of [index.js]

    The indexer scans a block range of an Ethereum chain in fixed-size
    windows, reduces the logs of one event taxonomy (proof submissions,
    slashing, withdrawal lifecycle) to per-address records and writes a
    snapshot.  The network and the file system are the only effects: the
    chain is a record of answers ([Chain]), a rejected promise is the
    [Rejected] outcome, [console.error] lines and the written snapshot are
    collected in the result of a run.  The progress and report lines of
    [console.log] are not modelled.

    JavaScript numbers that hold block numbers, counters and timestamps are
    integers far below 2^53 and are modelled by [Z]; [BigInt] is [Z].  The
    one place where the range of a double decides a property, the counter
    of the chunk loop, is also given on doubles ([chunkWindowsDouble]). *)

From Stdlib Require Import FloatClass PrimFloat.
From Stdlib Require Import String Ascii.
From Stdlib Require Import ZArith List Bool Lia Permutation Sorted.
From Stdlib Require Import DecimalString DecimalPos DecimalZ.
From Equations Require Import Equations.
Import ListNotations.
Open Scope Z_scope.

(** ** Promises *)

(** The settled state of an awaited promise. *)
Inductive outcome (A : Type) : Type :=
| Resolved (value : A)
| Rejected (message : string).
Arguments Resolved {A} value.
Arguments Rejected {A} message.

(** [Promise.all]: resolves to all the values when every promise resolves,
    rejects as soon as one rejects.  Which rejection wins a race is not
    observable here; the first one in list order is reported. *)
Fixpoint Promise_all {A : Type} (ps : list (outcome A)) : outcome (list A) :=
  match ps with
  | [] => Resolved []
  | Rejected m :: _ => Rejected m
  | Resolved v :: ps' =>
      match Promise_all ps' with
      | Resolved vs => Resolved (v :: vs)
      | Rejected m => Rejected m
      end
  end.

(** ** Arrays *)

Section Arrays.
Context {A : Type}.

Definition len (l : list A) : Z := Z.of_nat (length l).

(** [Array.prototype.slice(start, end)]: a negative index counts from the
    end of the array, both indices are clamped to the array. *)
Definition clampIndex (l : list A) (i : Z) : Z :=
  if i <? 0 then Z.max (len l + i) 0 else Z.min i (len l).

Definition slice (l : list A) (start : Z) (end_ : option Z) : list A :=
  let k := clampIndex l start in
  let final := match end_ with Some e => clampIndex l e | None => len l end in
  firstn (Z.to_nat (Z.max (final - k) 0)) (skipn (Z.to_nat k) l).

(** [Array.prototype.sort(cmp)].  ECMAScript requires the sort to be
    stable; for a comparator that is a total preorder the result of a
    stable sort is determined by the input, so a stable insertion sort
    stands for it.  An element goes in front of the first element it does
    not compare greater than. *)
Fixpoint sortInsert (cmp : A -> A -> Z) (x : A) (l : list A) : list A :=
  match l with
  | [] => [x]
  | y :: l' => if cmp x y <=? 0 then x :: y :: l' else y :: sortInsert cmp x l'
  end.

Fixpoint sort (cmp : A -> A -> Z) (l : list A) : list A :=
  match l with
  | [] => []
  | x :: l' => sortInsert cmp x (sort cmp l')
  end.

(** [[...new Set(xs)]]: the distinct values in order of first occurrence;
    [A_eqb] is the equality of the values. *)
Definition SetAdd (A_eqb : A -> A -> bool) (seen : list A) (x : A) : list A :=
  if existsb (A_eqb x) seen then seen else seen ++ [x].

Definition spreadSet (A_eqb : A -> A -> bool) (xs : list A) : list A :=
  fold_left (SetAdd A_eqb) xs [].
End Arrays.

(** ** Plain objects used as maps *)

(** An object keeps its string keys in insertion order; the keys used by
    the indexer are account addresses as ethers prints them (0x followed by
    40 hexadecimal digits), which are neither array indices nor names
    inherited from [Object.prototype].  [obj[k]] on a missing key is
    [undefined], an assignment to an existing key keeps its position. *)
Section JsObject.
Context {K V : Type} (K_eqb : K -> K -> bool).

Definition jsobj : Type := list (K * V).

Fixpoint get (o : jsobj) (k : K) : option V :=
  match o with
  | [] => None
  | (k', v) :: o' => if K_eqb k k' then Some v else get o' k
  end.

Fixpoint set (o : jsobj) (k : K) (v : V) : jsobj :=
  match o with
  | [] => [(k, v)]
  | (k', v') :: o' =>
      if K_eqb k k' then (k', v) :: o' else (k', v') :: set o' k v
  end.

Definition Object_keys (o : jsobj) : list K := map fst o.
Definition Object_values (o : jsobj) : list V := map snd o.

(** [obj[k].field = ...]: a mutation of the record stored under [k].  The
    callers create the record first, so the key is present. *)
Definition mutate (o : jsobj) (k : K) (f : V -> V) : jsobj :=
  match get o k with
  | Some v => set o k (f v)
  | None => o
  end.

(** Look up or create, then update: what the aggregators do to the record
    of an address, in one step. *)
Definition upsert (o : jsobj) (k : K) (init : V) (f : V -> V) : jsobj :=
  set o k (f (match get o k with Some v => v | None => init end)).

(** A stream of events, each updating the record of its key. *)
Definition aggregate {E : Type} (key : E -> K) (init : K -> V) (step : E -> V -> V)
  (o : jsobj) (e : E) : jsobj :=
  upsert o (key e) (init (key e)) (step e).

(** The events of the stream that carry the key [k]. *)
Definition eventsOf {E : Type} (key : E -> K) (k : K) (evs : list E) : list E :=
  filter (fun e => K_eqb (key e) k) evs.
End JsObject.
Arguments jsobj : clear implicits.

(** ** The chunked scan *)

Definition CHUNK_SIZE : Z := 10000.

(** [for (let start = fromBlock; start <= toBlock; start += CHUNK_SIZE) {
      const end = Math.min(start + CHUNK_SIZE - 1, toBlock); body }]
    threading the state the body updates.  [start] and [end] are doubles;
    on [Z] the loop is the one of the code as long as [toBlock] is a safe
    integer (at most [MAX_SAFE_INTEGER]): every window bound is then an
    integer a double holds exactly. *)
Equations? chunkLoop {S : Type} (body : Z -> Z -> S -> S)
  (start toBlock : Z) (s : S) : S by wf (Z.to_nat (toBlock - start + 1)) lt :=
  chunkLoop body start toBlock s with Z_le_gt_dec start toBlock => {
    | left _ =>
        chunkLoop body (start + CHUNK_SIZE) toBlock
          (body start (Z.min (start + CHUNK_SIZE - 1) toBlock) s);
    | right _ => s }.
Proof. unfold CHUNK_SIZE. lia. Qed.

(** The windows the loop visits, in order. *)
Definition windows (fromBlock toBlock : Z) : list (Z * Z) :=
  chunkLoop (fun start end_ acc => acc ++ [(start, end_)]) fromBlock toBlock [].

(** The blocks of an inclusive range, in ascending order. *)
Definition blocksOf (w : Z * Z) : list Z :=
  map (fun i => fst w + Z.of_nat i) (seq 0 (Z.to_nat (snd w - fst w + 1))).

(** Consecutive windows from [fromBlock] to [toBlock]: each starts right
    after the previous one ends, all but the last hold [CHUNK_SIZE] blocks,
    the last one ends at [toBlock] and holds between one and [CHUNK_SIZE]. *)
Fixpoint tiles (fromBlock toBlock : Z) (ws : list (Z * Z)) : Prop :=
  match ws with
  | [] => False
  | (s, e) :: rest =>
      s = fromBlock /\
      match rest with
      | [] => e = toBlock /\ 1 <= e - s + 1 <= CHUNK_SIZE
      | _ :: _ => e - s + 1 = CHUNK_SIZE /\ tiles (e + 1) toBlock rest
      end
  end.

(** ** The loop counter as a double *)

(** [Number.MAX_SAFE_INTEGER], 2^53 - 1: up to it every integer is a
    double and sums of integers are exact. *)
Definition MAX_SAFE_INTEGER : Z := 9007199254740991.

(** [Math.min] of two doubles. *)
Definition Math_min (a b : float) : float :=
  if PrimFloat.is_nan a || PrimFloat.is_nan b then PrimFloat.nan
  else if PrimFloat.ltb a b then a
  else if PrimFloat.ltb b a then b
  else match PrimFloat.classify a with
       | NZero => a
       | _ => b
       end.

(** The windows of the chunk loop computed as the code computes them, on
    IEEE doubles; [fuel] bounds the number of iterations, and the loop has
    ended by its own guard when fewer windows than [fuel] come out. *)
Fixpoint chunkWindowsDouble (fuel : nat) (start toBlock : float) : list (float * float) :=
  match fuel with
  | O => []
  | S fuel' =>
      if PrimFloat.leb start toBlock
      then (start, Math_min (start + 10000 - 1)%float toBlock)
             :: chunkWindowsDouble fuel' (start + 10000)%float toBlock
      else []
  end.

(** ** Values shared by the three pipelines *)

(** [BigInt.prototype.toString()] and [toString()] of an integer number:
    the decimal numeral, with a minus sign when negative. *)
Definition toString (z : Z) : string := NilZero.string_of_int (Z.to_int z).

(** What [console.error] receives. *)
Inductive ConsoleError : Type :=
| ErrorNotSet (variable : string)
| ErrorQuerying (start end_ : Z) (message : string)
| FatalError (message : string).

(** [provider.getBlock(bn)] resolves to a block object.  A lookup that
    resolves to [null] makes the caller throw on [block.number]; it counts
    as a rejected lookup. *)
Record Block : Type := mkBlock { block_number : Z; block_timestamp : Z }.

(** ** Proof submissions *)

Record ProofVerifiedLog : Type := mkProofVerifiedLog {
  pv_args_blockNumber : Z;
  pv_args_proverId : string;
  pv_transactionHash : string;
  pv_blockNumber : Z }.

Record ProofBlock : Type := mkProofBlock {
  pb_blockNumber : string;
  pb_txHash : string;
  pb_ethBlockNumber : Z }.

Record ProverRecord : Type := mkProverRecord {
  pr_address : string;
  proofCount : Z;
  blocks : list ProofBlock }.

Record ProofScan : Type := mkProofScan {
  proverStats : jsobj string ProverRecord;
  totalProofs : Z;
  ps_stderr : list ConsoleError }.

(** The body of [for (const event of events)] in [indexProofEvents]. *)
Definition onProofVerified (st : ProofScan) (event : ProofVerifiedLog) : ProofScan :=
  let blockNumber := toString (pv_args_blockNumber event) in
  let proverId := pv_args_proverId event in
  let stats0 := proverStats st in
  let stats1 :=
    match get String.eqb stats0 proverId with
    | None => set String.eqb stats0 proverId (mkProverRecord proverId 0 [])
    | Some _ => stats0
    end in
  let stats2 := mutate String.eqb stats1 proverId
    (fun r => mkProverRecord (pr_address r) (proofCount r + 1) (blocks r)) in
  let stats3 := mutate String.eqb stats2 proverId
    (fun r => mkProverRecord (pr_address r) (proofCount r)
       (blocks r ++ [mkProofBlock blockNumber (pv_transactionHash event)
                       (pv_blockNumber event)])) in
  mkProofScan stats3 (totalProofs st + 1) (ps_stderr st).

(** The [try { ... } catch (error) { console.error(...) }] of one window. *)
Definition proofWindow (queryFilter : Z -> Z -> outcome (list ProofVerifiedLog))
  (start end_ : Z) (st : ProofScan) : ProofScan :=
  match queryFilter start end_ with
  | Resolved events => fold_left onProofVerified events st
  | Rejected message =>
      mkProofScan (proverStats st) (totalProofs st)
        (ps_stderr st ++ [ErrorQuerying start end_ message])
  end.

Record ProofOutput : Type := mkProofOutput {
  po_blockRange : Z * Z;
  po_totalProofs : Z;
  po_uniqueProvers : Z;
  provers : list ProverRecord }.

Definition scanProofs (queryFilter : Z -> Z -> outcome (list ProofVerifiedLog))
  (fromBlock toBlock : Z) : ProofScan :=
  chunkLoop (proofWindow queryFilter) fromBlock toBlock (mkProofScan [] 0 []).

Definition sortedProvers (stats : jsobj string ProverRecord) : list ProverRecord :=
  sort (fun a b => proofCount b - proofCount a) (Object_values stats).

Definition indexProofEvents (queryFilter : Z -> Z -> outcome (list ProofVerifiedLog))
  (fromBlock toBlock : Z) : list ConsoleError * ProofOutput :=
  let st := scanProofs queryFilter fromBlock toBlock in
  (ps_stderr st,
   mkProofOutput (fromBlock, toBlock) (totalProofs st)
     (len (Object_keys (proverStats st))) (sortedProvers (proverStats st))).

(** ** Slashing *)

Record SlashedLog : Type := mkSlashedLog {
  sl_args_attester : string;
  sl_args_amount : Z;
  sl_transactionHash : string;
  sl_blockNumber : Z }.

Record SlashDetail : Type := mkSlashDetail {
  sd_amount : string;
  sd_txHash : string;
  sd_ethBlockNumber : Z }.

(** The record kept while scanning; the amount is a [BigInt]. *)
Record AttesterSlash : Type := mkAttesterSlash {
  as_address : string;
  slashCount : Z;
  as_totalAmountSlashed : Z;
  slashes : list SlashDetail }.

(** The record of the snapshot: [{...a, totalAmountSlashed:
    a.totalAmountSlashed.toString()}]. *)
Record AttesterSlashRecord : Type := mkAttesterSlashRecord {
  asr_address : string;
  asr_slashCount : Z;
  asr_totalAmountSlashed : string;
  asr_slashes : list SlashDetail }.

Record SlashScan : Type := mkSlashScan {
  slashStats : jsobj string AttesterSlash;
  totalSlashes : Z;
  totalAmountSlashed : Z;
  ss_stderr : list ConsoleError }.

(** The body of [for (const event of events)] in [indexSlashEvents]. *)
Definition onSlashed (st : SlashScan) (event : SlashedLog) : SlashScan :=
  let attester := sl_args_attester event in
  let amount := sl_args_amount event in
  let stats0 := slashStats st in
  let stats1 :=
    match get String.eqb stats0 attester with
    | None => set String.eqb stats0 attester (mkAttesterSlash attester 0 0 [])
    | Some _ => stats0
    end in
  let stats2 := mutate String.eqb stats1 attester
    (fun r => mkAttesterSlash (as_address r) (slashCount r + 1)
       (as_totalAmountSlashed r) (slashes r)) in
  let stats3 := mutate String.eqb stats2 attester
    (fun r => mkAttesterSlash (as_address r) (slashCount r)
       (as_totalAmountSlashed r + amount) (slashes r)) in
  let stats4 := mutate String.eqb stats3 attester
    (fun r => mkAttesterSlash (as_address r) (slashCount r)
       (as_totalAmountSlashed r)
       (slashes r ++ [mkSlashDetail (toString amount) (sl_transactionHash event)
                        (sl_blockNumber event)])) in
  mkSlashScan stats4 (totalSlashes st + 1) (totalAmountSlashed st + amount)
    (ss_stderr st).

Definition slashWindow (queryFilter : Z -> Z -> outcome (list SlashedLog))
  (start end_ : Z) (st : SlashScan) : SlashScan :=
  match queryFilter start end_ with
  | Resolved events => fold_left onSlashed events st
  | Rejected message =>
      mkSlashScan (slashStats st) (totalSlashes st) (totalAmountSlashed st)
        (ss_stderr st ++ [ErrorQuerying start end_ message])
  end.

Record SlashOutput : Type := mkSlashOutput {
  so_blockRange : Z * Z;
  so_totalSlashes : Z;
  so_totalAmountSlashed : string;
  so_uniqueAttesters : Z;
  so_attesters : list AttesterSlashRecord }.

Definition scanSlashes (queryFilter : Z -> Z -> outcome (list SlashedLog))
  (fromBlock toBlock : Z) : SlashScan :=
  chunkLoop (slashWindow queryFilter) fromBlock toBlock (mkSlashScan [] 0 0 []).

Definition slashRecord (a : AttesterSlash) : AttesterSlashRecord :=
  mkAttesterSlashRecord (as_address a) (slashCount a)
    (toString (as_totalAmountSlashed a)) (slashes a).

Definition sortedSlashAttesters (stats : jsobj string AttesterSlash)
  : list AttesterSlashRecord :=
  sort (fun a b => asr_slashCount b - asr_slashCount a)
    (map slashRecord (Object_values stats)).

Definition indexSlashEvents (queryFilter : Z -> Z -> outcome (list SlashedLog))
  (fromBlock toBlock : Z) : list ConsoleError * SlashOutput :=
  let st := scanSlashes queryFilter fromBlock toBlock in
  (ss_stderr st,
   mkSlashOutput (fromBlock, toBlock) (totalSlashes st)
     (toString (totalAmountSlashed st))
     (len (Object_keys (slashStats st))) (sortedSlashAttesters (slashStats st))).

(** ** Withdrawal lifecycle *)

(** Exit delay in seconds (14 days). *)
Definition EXIT_DELAY_SECONDS : Z := 14 * 24 * 60 * 60.

(** A [WithdrawInitiated] or [WithdrawFinalized] log. *)
Record WithdrawLog : Type := mkWithdrawLog {
  w_args_attester : string;
  w_args_recipient : string;
  w_args_amount : Z;
  w_transactionHash : string;
  w_blockNumber : Z }.

(** An entry of [initiated].  [timestamp] is [None] when
    [blockTimestamps[event.blockNumber]] is [undefined]; [exitableAt] is
    then [NaN], also written [None]. *)
Record InitiatedDetail : Type := mkInitiatedDetail {
  i_recipient : string;
  i_amount : string;
  i_txHash : string;
  i_ethBlockNumber : Z;
  timestamp : option Z;
  exitableAt : option Z;
  canFinalize : bool }.

Record FinalizedDetail : Type := mkFinalizedDetail {
  f_recipient : string;
  f_amount : string;
  f_txHash : string;
  f_ethBlockNumber : Z }.

Record AttesterExit : Type := mkAttesterExit {
  ae_address : string;
  initiatedCount : Z;
  finalizedCount : Z;
  totalInitiatedAmount : Z;
  totalFinalizedAmount : Z;
  initiated : list InitiatedDetail;
  finalized : list FinalizedDetail }.

(** The record of the snapshot, with the two amounts as decimal strings. *)
Record AttesterExitRecord : Type := mkAttesterExitRecord {
  aer_address : string;
  aer_initiatedCount : Z;
  aer_finalizedCount : Z;
  aer_totalInitiatedAmount : string;
  aer_totalFinalizedAmount : string;
  aer_initiated : list InitiatedDetail;
  aer_finalized : list FinalizedDetail }.

(** [{attester: attester.address, ...exit}] *)
Record PendingExit : Type := mkPendingExit {
  attester : string;
  exit : InitiatedDetail }.

Record ExitScan : Type := mkExitScan {
  initiatedEvents : list WithdrawLog;
  finalizedEvents : list WithdrawLog;
  es_stderr : list ConsoleError }.

(** One window of [indexExitEvents]: the two queries are awaited together
    with [Promise.all], so the events of the window are kept only when both
    resolve. *)
Definition exitWindow (queryInitiated queryFinalized : Z -> Z -> outcome (list WithdrawLog))
  (start end_ : Z) (st : ExitScan) : ExitScan :=
  match Promise_all [queryInitiated start end_; queryFinalized start end_] with
  | Resolved [initiated; finalized] =>
      mkExitScan (initiatedEvents st ++ initiated) (finalizedEvents st ++ finalized)
        (es_stderr st)
  | Resolved _ => st
  | Rejected message =>
      mkExitScan (initiatedEvents st) (finalizedEvents st)
        (es_stderr st ++ [ErrorQuerying start end_ message])
  end.

Definition scanExits (queryInitiated queryFinalized : Z -> Z -> outcome (list WithdrawLog))
  (fromBlock toBlock : Z) : ExitScan :=
  chunkLoop (exitWindow queryInitiated queryFinalized) fromBlock toBlock
    (mkExitScan [] [] []).

(** The state of the timestamp loop: the map filled so far and the batches
    of [provider.getBlock] calls issued so far. *)
Record Lookups : Type := mkLookups {
  blockTimestamps : jsobj Z Z;
  batches : list (list Z) }.

Definition recordBlocks (ts : jsobj Z Z) (blocks_ : list Block) : jsobj Z Z :=
  fold_left (fun ts block => set Z.eqb ts (block_number block) (block_timestamp block))
    blocks_ ts.

(** [for (let i = 0; i < uniqueBlocks.length; i += 10)]: every call of a
    batch is issued by [batch.map], the batch is awaited as a whole, and a
    rejection leaves the loop (and the function) at once. *)
Equations? timestampLoop (getBlock : Z -> outcome Block) (uniqueBlocks : list Z)
  (i : Z) (st : Lookups) : outcome (jsobj Z Z) * list (list Z)
  by wf (Z.to_nat (len uniqueBlocks - i)) lt :=
  timestampLoop getBlock uniqueBlocks i st with Z_lt_ge_dec i (len uniqueBlocks) => {
    | left _ with Promise_all (map getBlock (slice uniqueBlocks i (Some (i + 10)))) => {
        | Resolved blocks_ =>
            timestampLoop getBlock uniqueBlocks (i + 10)
              (mkLookups (recordBlocks (blockTimestamps st) blocks_)
                 (batches st ++ [slice uniqueBlocks i (Some (i + 10))]));
        | Rejected message =>
            (Rejected message, batches st ++ [slice uniqueBlocks i (Some (i + 10))]) };
    | right _ => (Resolved (blockTimestamps st), batches st) }.
Proof. lia. Qed.

Definition resolveTimestamps (getBlock : Z -> outcome Block) (events : list WithdrawLog)
  : outcome (jsobj Z Z) * list (list Z) :=
  let uniqueBlocks := spreadSet Z.eqb (map w_blockNumber events) in
  timestampLoop getBlock uniqueBlocks 0 (mkLookups [] []).

(** [now >= exitableAt]; a comparison with [NaN] is false. *)
Definition geNumber (now : Z) (x : option Z) : bool :=
  match x with
  | Some v => v <=? now
  | None => false
  end.

Definition newAttesterExit (a : string) : AttesterExit :=
  mkAttesterExit a 0 0 0 0 [] [].

(** The body of [for (const event of initiatedEvents)]. *)
Definition onInitiated (now : Z) (ts : jsobj Z Z)
  (stats0 : jsobj string AttesterExit) (event : WithdrawLog) : jsobj string AttesterExit :=
  let attester := w_args_attester event in
  let recipient := w_args_recipient event in
  let amount := w_args_amount event in
  let timestamp := get Z.eqb ts (w_blockNumber event) in
  let exitableAt := option_map (fun t => t + EXIT_DELAY_SECONDS) timestamp in
  let stats1 :=
    match get String.eqb stats0 attester with
    | None => set String.eqb stats0 attester (newAttesterExit attester)
    | Some _ => stats0
    end in
  let stats2 := mutate String.eqb stats1 attester
    (fun r => mkAttesterExit (ae_address r) (initiatedCount r + 1) (finalizedCount r)
       (totalInitiatedAmount r) (totalFinalizedAmount r) (initiated r) (finalized r)) in
  let stats3 := mutate String.eqb stats2 attester
    (fun r => mkAttesterExit (ae_address r) (initiatedCount r) (finalizedCount r)
       (totalInitiatedAmount r + amount) (totalFinalizedAmount r)
       (initiated r) (finalized r)) in
  mutate String.eqb stats3 attester
    (fun r => mkAttesterExit (ae_address r) (initiatedCount r) (finalizedCount r)
       (totalInitiatedAmount r) (totalFinalizedAmount r)
       (initiated r ++
          [mkInitiatedDetail recipient (toString amount) (w_transactionHash event)
             (w_blockNumber event) timestamp exitableAt (geNumber now exitableAt)])
       (finalized r)).

(** The body of [for (const event of finalizedEvents)]. *)
Definition onFinalized (stats0 : jsobj string AttesterExit) (event : WithdrawLog)
  : jsobj string AttesterExit :=
  let attester := w_args_attester event in
  let recipient := w_args_recipient event in
  let amount := w_args_amount event in
  let stats1 :=
    match get String.eqb stats0 attester with
    | None => set String.eqb stats0 attester (newAttesterExit attester)
    | Some _ => stats0
    end in
  let stats2 := mutate String.eqb stats1 attester
    (fun r => mkAttesterExit (ae_address r) (initiatedCount r) (finalizedCount r + 1)
       (totalInitiatedAmount r) (totalFinalizedAmount r) (initiated r) (finalized r)) in
  let stats3 := mutate String.eqb stats2 attester
    (fun r => mkAttesterExit (ae_address r) (initiatedCount r) (finalizedCount r)
       (totalInitiatedAmount r) (totalFinalizedAmount r + amount)
       (initiated r) (finalized r)) in
  mutate String.eqb stats3 attester
    (fun r => mkAttesterExit (ae_address r) (initiatedCount r) (finalizedCount r)
       (totalInitiatedAmount r) (totalFinalizedAmount r) (initiated r)
       (finalized r ++
          [mkFinalizedDetail recipient (toString amount) (w_transactionHash event)
             (w_blockNumber event)])).

Definition buildAttesterStats (now : Z) (ts : jsobj Z Z)
  (initiatedEvents_ finalizedEvents_ : list WithdrawLog) : jsobj string AttesterExit :=
  fold_left onFinalized finalizedEvents_
    (fold_left (onInitiated now ts) initiatedEvents_ []).

(** The summary counters and the pending exits collected so far. *)
Record ExitTotals : Type := mkExitTotals {
  totalInitiated : Z;
  totalFinalized : Z;
  pendingCanFinalize : Z;
  pendingCannotFinalize : Z;
  pendingExits : list PendingExit }.

(** The body of [for (const exit of unfinalized)]. *)
Definition onUnfinalized (address : string) (t : ExitTotals) (exit_ : InitiatedDetail)
  : ExitTotals :=
  let t1 :=
    if canFinalize exit_
    then mkExitTotals (totalInitiated t) (totalFinalized t) (pendingCanFinalize t + 1)
           (pendingCannotFinalize t) (pendingExits t)
    else mkExitTotals (totalInitiated t) (totalFinalized t) (pendingCanFinalize t)
           (pendingCannotFinalize t + 1) (pendingExits t) in
  mkExitTotals (totalInitiated t1) (totalFinalized t1) (pendingCanFinalize t1)
    (pendingCannotFinalize t1) (pendingExits t1 ++ [mkPendingExit address exit_]).

(** The body of [for (const attester of Object.values(attesterStats))]. *)
Definition onAttester (t : ExitTotals) (a : AttesterExit) : ExitTotals :=
  let t1 := mkExitTotals (totalInitiated t + initiatedCount a)
              (totalFinalized t + finalizedCount a) (pendingCanFinalize t)
              (pendingCannotFinalize t) (pendingExits t) in
  let pendingCount := initiatedCount a - finalizedCount a in
  if 0 <? pendingCount
  then
    let unfinalized := slice (initiated a) (- pendingCount) None in
    fold_left (onUnfinalized (ae_address a)) unfinalized t1
  else t1.

Definition summarize (stats : jsobj string AttesterExit) : ExitTotals :=
  fold_left onAttester (Object_values stats) (mkExitTotals 0 0 0 0 []).

(** [a.exitableAt - b.exitableAt]; [sort] reads a [NaN] result as [+0].
    With a [NaN] among the keys the comparator is not consistent, and the
    order the engine leaves is its own; the sorted list is then used as a
    rearrangement only. *)
Definition byExitableAt (a b : PendingExit) : Z :=
  match exitableAt (exit a), exitableAt (exit b) with
  | Some x, Some y => x - y
  | _, _ => 0
  end.

Definition exitRecord (a : AttesterExit) : AttesterExitRecord :=
  mkAttesterExitRecord (ae_address a) (initiatedCount a) (finalizedCount a)
    (toString (totalInitiatedAmount a)) (toString (totalFinalizedAmount a))
    (initiated a) (finalized a).

Definition sortedExitAttesters (stats : jsobj string AttesterExit)
  : list AttesterExitRecord :=
  sort (fun a b => aer_initiatedCount b - aer_initiatedCount a)
    (map exitRecord (Object_values stats)).

Record ExitOutput : Type := mkExitOutput {
  eo_currentTimestamp : Z;
  eo_blockRange : Z * Z;
  eo_totalInitiated : Z;
  eo_totalFinalized : Z;
  eo_totalPending : Z;
  eo_pendingCanFinalize : Z;
  eo_pendingCannotFinalize : Z;
  eo_uniqueAttesters : Z;
  eo_pendingExits : list PendingExit;
  eo_attesters : list AttesterExitRecord }.

(** Everything after the timestamps are known; [dateNow] is the reading of
    [Date.now()] taken once, in milliseconds. *)
Definition exitOutput (dateNow : Z) (ts : jsobj Z Z) (scan : ExitScan)
  (fromBlock toBlock : Z) : ExitOutput :=
  let now := dateNow / 1000 in
  let attesterStats := buildAttesterStats now ts (initiatedEvents scan) (finalizedEvents scan) in
  let t := summarize attesterStats in
  let pendingExits_ := sort byExitableAt (pendingExits t) in
  mkExitOutput now (fromBlock, toBlock) (totalInitiated t) (totalFinalized t)
    (len pendingExits_) (pendingCanFinalize t) (pendingCannotFinalize t)
    (len (Object_keys attesterStats)) pendingExits_ (sortedExitAttesters attesterStats).

Record ExitRun : Type := mkExitRun {
  er_stderr : list ConsoleError;
  er_batches : list (list Z);
  er_result : outcome ExitOutput }.

Definition indexExitEvents
  (queryInitiated queryFinalized : Z -> Z -> outcome (list WithdrawLog))
  (getBlock : Z -> outcome Block) (dateNow : Z) (fromBlock toBlock : Z) : ExitRun :=
  let scan := scanExits queryInitiated queryFinalized fromBlock toBlock in
  let (resolved, issued) := resolveTimestamps getBlock (initiatedEvents scan) in
  match resolved with
  | Resolved ts =>
      mkExitRun (es_stderr scan) issued
        (Resolved (exitOutput dateNow ts scan fromBlock toBlock))
  | Rejected message => mkExitRun (es_stderr scan) issued (Rejected message)
  end.

(** ** The process *)

(** The environment after [dotenv.config()] and the command line.
    [START_BLOCK] and [END_BLOCK] are the integers [parseInt] read, [None]
    when the variable is unset or empty ([undefined], respectively
    ['latest']); a value [parseInt] reads no integer from is not modelled. *)
Record Env : Type := mkEnv {
  SEPOLIA_RPC_URL : option string;
  ROLLUP_CONTRACT_ADDRESS : option string;
  START_BLOCK : option Z;
  END_BLOCK : option Z;
  argv2 : option string }.

(** What the provider and the contract answer. *)
Record Chain : Type := mkChain {
  getBlockNumber : outcome Z;
  queryL2ProofVerified : Z -> Z -> outcome (list ProofVerifiedLog);
  querySlashed : Z -> Z -> outcome (list SlashedLog);
  queryWithdrawInitiated : Z -> Z -> outcome (list WithdrawLog);
  queryWithdrawFinalized : Z -> Z -> outcome (list WithdrawLog);
  getBlock : Z -> outcome Block }.

(** The file [fs.writeFileSync] writes.  The [scannedAt] string and the
    file name, both readings of the wall clock, are left out. *)
Inductive Snapshot : Type :=
| ProverStats (data : ProofOutput)
| SlashStats (data : SlashOutput)
| ExitStats (data : ExitOutput).

(** What a run leaves behind. *)
Record Process : Type := mkProcess {
  exitCode : Z;
  stderr : list ConsoleError;
  getBlockBatches : list (list Z);
  written : option Snapshot }.

(** [!s] for a string or [undefined]. *)
Definition notSet (s : option string) : bool :=
  match s with
  | None => true
  | Some v => String.eqb v ""
  end.

(** [process.argv[2] || 'proofs'] *)
Definition MODE (env : Env) : string :=
  match argv2 env with
  | None => "proofs"
  | Some m => if String.eqb m "" then "proofs" else m
  end.

Definition SLASH_MODE (env : Env) : bool := String.eqb (MODE env) "slash".
Definition EXIT_MODE (env : Env) : bool := String.eqb (MODE env) "exit".

(** [main().then(() => process.exit(0)).catch(error => { console.error(
    'Fatal error:', error); process.exit(1) })] *)
Definition main (env : Env) (chain : Chain) (dateNow : Z) : Process :=
  if notSet (SEPOLIA_RPC_URL env) then
    mkProcess 1 [ErrorNotSet "SEPOLIA_RPC_URL"] [] None
  else if notSet (ROLLUP_CONTRACT_ADDRESS env) then
    mkProcess 1 [ErrorNotSet "ROLLUP_CONTRACT_ADDRESS"] [] None
  else
    match getBlockNumber chain with
    | Rejected message => mkProcess 1 [FatalError message] [] None
    | Resolved currentBlock =>
        let fromBlock := match START_BLOCK env with Some b => b | None => 0 end in
        let toBlock := match END_BLOCK env with Some b => b | None => currentBlock end in
        if EXIT_MODE env then
          let r := indexExitEvents (queryWithdrawInitiated chain)
                     (queryWithdrawFinalized chain) (getBlock chain)
                     dateNow fromBlock toBlock in
          match er_result r with
          | Resolved data => mkProcess 0 (er_stderr r) (er_batches r) (Some (ExitStats data))
          | Rejected message =>
              mkProcess 1 (er_stderr r ++ [FatalError message]) (er_batches r) None
          end
        else if SLASH_MODE env then
          let (errors, data) := indexSlashEvents (querySlashed chain) fromBlock toBlock in
          mkProcess 0 errors [] (Some (SlashStats data))
        else
          let (errors, data) := indexProofEvents (queryL2ProofVerified chain) fromBlock toBlock in
          mkProcess 0 errors [] (Some (ProverStats data))
    end.

(** ** What the claims speak about *)

(** The events of the windows whose query resolved, in window order. *)
Definition consumed {E : Type} (queryFilter : Z -> Z -> outcome (list E))
  (ws : list (Z * Z)) : list E :=
  flat_map (fun w => match queryFilter (fst w) (snd w) with
                     | Resolved events => events
                     | Rejected _ => []
                     end) ws.

(** The error lines of the windows whose query rejected, in window order. *)
Definition failures {E : Type} (queryFilter : Z -> Z -> outcome (list E))
  (ws : list (Z * Z)) : list ConsoleError :=
  flat_map (fun w => match queryFilter (fst w) (snd w) with
                     | Resolved _ => []
                     | Rejected message => [ErrorQuerying (fst w) (snd w) message]
                     end) ws.


(** The pair of withdrawal queries of a window, as [Promise.all] settles. *)
Definition bothWithdraw (queryInitiated queryFinalized : Z -> Z -> outcome (list WithdrawLog))
  (start end_ : Z) : outcome (list WithdrawLog * list WithdrawLog) :=
  match queryInitiated start end_, queryFinalized start end_ with
  | Resolved i, Resolved f => Resolved (i, f)
  | Rejected m, _ => Rejected m
  | Resolved _, Rejected m => Rejected m
  end.

(** What a window yields of each kind once the pair has settled. *)
Definition settledInitiated (queryInitiated queryFinalized : Z -> Z -> outcome (list WithdrawLog))
  (start end_ : Z) : outcome (list WithdrawLog) :=
  match bothWithdraw queryInitiated queryFinalized start end_ with
  | Resolved (i, _) => Resolved i
  | Rejected m => Rejected m
  end.

Definition settledFinalized (queryInitiated queryFinalized : Z -> Z -> outcome (list WithdrawLog))
  (start end_ : Z) : outcome (list WithdrawLog) :=
  match bothWithdraw queryInitiated queryFinalized start end_ with
  | Resolved (_, f) => Resolved f
  | Rejected m => Rejected m
  end.





(** The addresses of a stream in order of first occurrence. *)
Definition encounterOrder (ks : list string) : list string := spreadSet String.eqb ks.

(** The position of the first occurrence of [k] (the length when absent). *)
Fixpoint firstSeen (k : string) (ks : list string) : nat :=
  match ks with
  | [] => 0%nat
  | k' :: ks' => if String.eqb k k' then 0%nat else S (firstSeen k ks')
  end.

(** [a] stands somewhere before [b] in [l]. *)
Fixpoint precedes {A : Type} (a b : A) (l : list A) : Prop :=
  match l with
  | [] => False
  | x :: l' => (x = a /\ In b l') \/ precedes a b l'
  end.

(** The update one event makes to the record of its address. *)
Definition proofBlockOf (event : ProofVerifiedLog) : ProofBlock :=
  mkProofBlock (toString (pv_args_blockNumber event)) (pv_transactionHash event)
    (pv_blockNumber event).

Definition proofStep (event : ProofVerifiedLog) (r : ProverRecord) : ProverRecord :=
  mkProverRecord (pr_address r) (proofCount r + 1) (blocks r ++ [proofBlockOf event]).

Definition aggregateProofs : jsobj string ProverRecord -> ProofVerifiedLog ->
                             jsobj string ProverRecord :=
  aggregate String.eqb pv_args_proverId (fun k => mkProverRecord k 0 []) proofStep.

(** The record of prover [k] after the events [evs]. *)
Definition proverRecordOf (evs : list ProofVerifiedLog) (k : string) : ProverRecord :=
  mkProverRecord k (len (eventsOf String.eqb pv_args_proverId k evs))
    (map proofBlockOf (eventsOf String.eqb pv_args_proverId k evs)).

Definition sumZ (l : list Z) : Z := fold_right Z.add 0 l.

Definition slashDetailOf (event : SlashedLog) : SlashDetail :=
  mkSlashDetail (toString (sl_args_amount event)) (sl_transactionHash event)
    (sl_blockNumber event).

Definition slashStep (event : SlashedLog) (r : AttesterSlash) : AttesterSlash :=
  mkAttesterSlash (as_address r) (slashCount r + 1)
    (as_totalAmountSlashed r + sl_args_amount event)
    (slashes r ++ [slashDetailOf event]).

Definition aggregateSlashes : jsobj string AttesterSlash -> SlashedLog ->
                              jsobj string AttesterSlash :=
  aggregate String.eqb sl_args_attester (fun k => mkAttesterSlash k 0 0 []) slashStep.

(** The record of attester [k] after the slash events [evs]. *)
Definition slashRecordOf (evs : list SlashedLog) (k : string) : AttesterSlash :=
  mkAttesterSlash k (len (eventsOf String.eqb sl_args_attester k evs))
    (sumZ (map sl_args_amount (eventsOf String.eqb sl_args_attester k evs)))
    (map slashDetailOf (eventsOf String.eqb sl_args_attester k evs)).

(** The entry an initiated event appends to [initiated]. *)
Definition initiatedDetailOf (now : Z) (ts : jsobj Z Z) (event : WithdrawLog)
  : InitiatedDetail :=
  let timestamp := get Z.eqb ts (w_blockNumber event) in
  let exitableAt := option_map (fun t => t + EXIT_DELAY_SECONDS) timestamp in
  mkInitiatedDetail (w_args_recipient event) (toString (w_args_amount event))
    (w_transactionHash event) (w_blockNumber event) timestamp exitableAt
    (geNumber now exitableAt).

(** The entry a finalized event appends to [finalized]. *)
Definition finalizedDetailOf (event : WithdrawLog) : FinalizedDetail :=
  mkFinalizedDetail (w_args_recipient event) (toString (w_args_amount event))
    (w_transactionHash event) (w_blockNumber event).

(** The two loops over the withdrawal events as one stream: the initiated
    events ([inl]) followed by the finalized ones ([inr]). *)
Definition lifecycleKey (ev : WithdrawLog + WithdrawLog) : string :=
  match ev with
  | inl e => w_args_attester e
  | inr e => w_args_attester e
  end.

Definition exitStep (now : Z) (ts : jsobj Z Z) (ev : WithdrawLog + WithdrawLog)
  (r : AttesterExit) : AttesterExit :=
  match ev with
  | inl e =>
      mkAttesterExit (ae_address r) (initiatedCount r + 1) (finalizedCount r)
        (totalInitiatedAmount r + w_args_amount e) (totalFinalizedAmount r)
        (initiated r ++ [initiatedDetailOf now ts e]) (finalized r)
  | inr e =>
      mkAttesterExit (ae_address r) (initiatedCount r) (finalizedCount r + 1)
        (totalInitiatedAmount r) (totalFinalizedAmount r + w_args_amount e)
        (initiated r) (finalized r ++ [finalizedDetailOf e])
  end.

Definition aggregateExits (now : Z) (ts : jsobj Z Z)
  : jsobj string AttesterExit -> WithdrawLog + WithdrawLog -> jsobj string AttesterExit :=
  aggregate String.eqb lifecycleKey newAttesterExit (exitStep now ts).

(** The events of attester [k]. *)
Definition withdrawalsOf (k : string) (evs : list WithdrawLog) : list WithdrawLog :=
  eventsOf String.eqb w_args_attester k evs.

(** The record of attester [k] after the initiated and finalized events. *)
Definition attesterExitOf (now : Z) (ts : jsobj Z Z)
  (inits fins : list WithdrawLog) (k : string) : AttesterExit :=
  mkAttesterExit k (len (withdrawalsOf k inits)) (len (withdrawalsOf k fins))
    (sumZ (map w_args_amount (withdrawalsOf k inits)))
    (sumZ (map w_args_amount (withdrawalsOf k fins)))
    (map (initiatedDetailOf now ts) (withdrawalsOf k inits))
    (map finalizedDetailOf (withdrawalsOf k fins)).

(** The last [n] entries of a list, in their order. *)
Definition lastn {A : Type} (n : nat) (l : list A) : list A :=
  skipn (length l - n) l.

(** The entries [onAttester] turns into pending exits. *)
Definition unfinalizedOf (a : AttesterExit) : list InitiatedDetail :=
  if 0 <? initiatedCount a - finalizedCount a
  then slice (initiated a) (- (initiatedCount a - finalizedCount a)) None
  else [].

(** The pending exits attributed to the attester [k]. *)
Definition pendingOf (k : string) (l : list PendingExit) : list PendingExit :=
  filter (fun p => String.eqb (attester p) k) l.

(** The pending exits of a list of attester records, in loop order. *)
Definition pendingOfAttesters (l : list AttesterExit) : list PendingExit :=
  flat_map (fun a => map (mkPendingExit (ae_address a)) (unfinalizedOf a)) l.

(** A promise that resolved, and the values of the resolved ones. *)
Definition resolves {A : Type} (o : outcome A) : bool :=
  match o with
  | Resolved _ => true
  | Rejected _ => false
  end.

Definition valuesOf {A : Type} (os : list (outcome A)) : list A :=
  flat_map (fun o => match o with
                     | Resolved v => [v]
                     | Rejected _ => []
                     end) os.

(** [P] holds of every element but the last. *)
Fixpoint allButLast {A : Type} (P : A -> Prop) (l : list A) : Prop :=
  match l with
  | [] => True
  | x :: l' =>
      match l' with
      | [] => True
      | _ :: _ => P x /\ allButLast P l'
      end
  end.

(** ** The first version of the indexer *)

(** [main] of the proof-only version of [index.js]: the same checks and
    the same scan, with no mode to choose. *)
Definition mainLegacy (env : Env) (chain : Chain) : Process :=
  if notSet (SEPOLIA_RPC_URL env) then
    mkProcess 1 [ErrorNotSet "SEPOLIA_RPC_URL"] [] None
  else if notSet (ROLLUP_CONTRACT_ADDRESS env) then
    mkProcess 1 [ErrorNotSet "ROLLUP_CONTRACT_ADDRESS"] [] None
  else
    match getBlockNumber chain with
    | Rejected message => mkProcess 1 [FatalError message] [] None
    | Resolved currentBlock =>
        let fromBlock := match START_BLOCK env with Some b => b | None => 0 end in
        let toBlock := match END_BLOCK env with Some b => b | None => currentBlock end in
        let st := chunkLoop (proofWindow (queryL2ProofVerified chain)) fromBlock toBlock
                    (mkProofScan [] 0 []) in
        let sortedProvers_ :=
          sort (fun a b => proofCount b - proofCount a) (Object_values (proverStats st)) in
        mkProcess 0 (ps_stderr st) []
          (Some (ProverStats
                   (mkProofOutput (fromBlock, toBlock) (totalProofs st)
                      (len (Object_keys (proverStats st))) sortedProvers_)))
    end.

(** ** Writing and finding the snapshot files *)

(** The name under which a snapshot is written:
    [`prover-stats-${Date.now()}.json`] and its two siblings; [writtenAt]
    is the reading of [Date.now()] at that point. *)
Definition outputFileName (s : Snapshot) (writtenAt : Z) : string :=
  match s with
  | ProverStats _ => "prover-stats-" ++ toString writtenAt ++ ".json"
  | SlashStats _ => "slash-stats-" ++ toString writtenAt ++ ".json"
  | ExitStats _ => "exit-stats-" ++ toString writtenAt ++ ".json"
  end%string.

(** [s.startsWith(p)] and [s.endsWith(p)]. *)
Definition startsWith (s p : string) : bool := String.prefix p s.

Fixpoint endsWith (s p : string) : bool :=
  if String.eqb s p then true
  else
    match s with
    | EmptyString => false
    | String _ s' => endsWith s' p
    end.

Record StatsFile : Type := mkStatsFile {
  sf_name : string;
  sf_path : string;
  sf_time : Z }.

(** What [getLatestStatsFile] prints before [process.exit(1)]. *)
Inductive StatsError : Type :=
| NoDataDirectory (command : string)
| NoStatsFiles (modeName command : string).

Definition filePrefixOf (mode : string) : string :=
  if String.eqb mode "exit" then "exit-stats-"
  else if String.eqb mode "slash" then "slash-stats-"
  else "prover-stats-".

Definition commandOf (mode : string) : string :=
  if String.eqb mode "exit" then "npm run exit"
  else if String.eqb mode "slash" then "npm run slash"
  else "npm start".

Definition modeNameOf (mode : string) : string :=
  if String.eqb mode "exit" then "exit"
  else if String.eqb mode "slash" then "slash"
  else "prover".

(** The files of the data directory that belong to a mode. *)
Definition isStatsFile (mode : string) (entry : string * Z) : bool :=
  startsWith (fst entry) (filePrefixOf mode) && endsWith (fst entry) ".json".

(** [getLatestStatsFile(mode)] of [getStats.js].  [listing] is what
    [fs.readdirSync(dataDir)] returns, each name with the modification
    time [fs.statSync] reports for it, or [None] when the directory does
    not exist; the result is the path returned or the error printed before
    the process exits with code 1. *)
Definition getLatestStatsFile (dataDir : string) (listing : option (list (string * Z)))
  (mode : string) : StatsError + string :=
  match listing with
  | None => inl (NoDataDirectory (commandOf mode))
  | Some entries =>
      let files :=
        sort (fun a b => sf_time b - sf_time a)
          (map (fun entry =>
                  mkStatsFile (fst entry) (dataDir ++ "/" ++ fst entry)%string (snd entry))
             (filter (isStatsFile mode) entries)) in
      match files with
      | [] => inl (NoStatsFiles (modeNameOf mode) (commandOf mode))
      | latest :: _ => inr (sf_path latest)
      end
  end.

(** The mode [getStats.js] passes to [getLatestStatsFile] for a command
    line: ['exit'], ['slash'], or ['prover'] for anything else. *)
Definition readerMode (env : Env) : string :=
  if EXIT_MODE env then "exit" else if SLASH_MODE env then "slash" else "prover".

(** ** Re-deriving eligibility when a snapshot is displayed *)

(** A number read back from the snapshot file: [NaN] was written as
    [null], and [null] counts as 0 in [>=] and in [-]. *)
Definition numberOrNull (x : option Z) : Z :=
  match x with
  | Some v => v
  | None => 0
  end.

(** [now >= exit.exitableAt] in [displayExitStats]. *)
Definition canFinalizeAt (now : Z) (p : PendingExit) : bool :=
  numberOrNull (exitableAt (exit p)) <=? now.

(** The loop that recounts [canFinalizeNow] and [cannotFinalizeYet]. *)
Definition recount (now : Z) (pendingExits_ : list PendingExit) : Z * Z :=
  fold_left (fun counts p =>
               if canFinalizeAt now p
               then (fst counts + 1, snd counts)
               else (fst counts, snd counts + 1))
    pendingExits_ (0, 0).

(** [Math.ceil((exit.exitableAt - now) / (24 * 60 * 60))]; for a
    difference that is a safe integer, as differences of timestamps are,
    the ceiling of the double quotient is the integer one. *)
Definition daysLeft (now : Z) (p : PendingExit) : Z :=
  - ((- (numberOrNull (exitableAt (exit p)) - now)) / (24 * 60 * 60)).

(** What a line of the pending-exit timeline announces. *)
Inductive TimelineStatus : Type :=
| CanFinalize
| DaysLeft (days : Z).

Definition timelineStatus (now : Z) (p : PendingExit) : TimelineStatus :=
  if canFinalizeAt now p then CanFinalize else DaysLeft (daysLeft now p).

(** ** The pending withdrawals as events *)

(** The initiated events of attester [k] that stay pending: the last
    [max(0, initiated - finalized)] of them. *)
Definition pendingEventsOf (inits fins : list WithdrawLog) (k : string) : list WithdrawLog :=
  lastn (Z.to_nat (Z.max 0 (len (withdrawalsOf k inits) - len (withdrawalsOf k fins))))
    (withdrawalsOf k inits).

(** ** Sample chains *)

Definition addr1 : string := "0x0000000000000000000000000000000000000001".
Definition addr2 : string := "0x0000000000000000000000000000000000000002".
Definition addr3 : string := "0x0000000000000000000000000000000000000003".

(** A transaction hash, one per [n] below 90000. *)
Definition sampleTx (n : Z) : string :=
  ("0x00000000000000000000000000000000000000000000000000000000000"
     ++ toString (10000 + n))%string.

(** The logs of a chain that fall into a window. *)
Definition logsIn {E : Type} (blockOf : E -> Z) (all : list E) (start end_ : Z)
  : outcome (list E) :=
  Resolved (filter (fun ev => (start <=? blockOf ev) && (blockOf ev <=? end_)) all).

Definition noLogs {E : Type} (start end_ : Z) : outcome (list E) := Resolved [].

Definition sampleEnv (mode : string) (fromBlock : Z) : Env :=
  mkEnv (Some "https://rpc.sepolia.example"%string) (Some addr3) (Some fromBlock) None (Some mode).

(** Proofs by the second prover, then the first, then both again and a
    third; the window starting at block 10100 cannot be read. *)
Definition proofLogs : list ProofVerifiedLog :=
  [ mkProofVerifiedLog 5 addr2 (sampleTx 1) 120;
    mkProofVerifiedLog 6 addr1 (sampleTx 2) 130;
    mkProofVerifiedLog 7 addr1 (sampleTx 3) 140;
    mkProofVerifiedLog 8 addr3 (sampleTx 4) 15000;
    mkProofVerifiedLog 9 addr2 (sampleTx 5) 20200;
    mkProofVerifiedLog 10 addr3 (sampleTx 6) 20300 ].

Definition proofChain : Chain :=
  mkChain (Resolved 25003)
    (fun s e => if s =? 10100 then Rejected "rate limit exceeded"
                else logsIn pv_blockNumber proofLogs s e)
    noLogs noLogs noLogs
    (fun bn => Resolved (mkBlock bn (1000000 + 12 * bn))).

(** Two slashes of one attester, the first above 2^128. *)
Definition slashLogs : list SlashedLog :=
  [ mkSlashedLog addr1 (2 ^ 128 + 1) (sampleTx 1) 120;
    mkSlashedLog addr1 20 (sampleTx 2) 130 ].

Definition slashChain : Chain :=
  mkChain (Resolved 200) noLogs (logsIn sl_blockNumber slashLogs) noLogs noLogs
    (fun bn => Resolved (mkBlock bn (1000000 + 12 * bn))).

(** One attester with an initiated withdrawal, another with a finalized one
    whose initiation lies before the scanned range. *)
Definition overFinalizedChain : Chain :=
  mkChain (Resolved 101) noLogs noLogs
    (logsIn w_blockNumber [mkWithdrawLog addr1 addr3 500 (sampleTx 1) 100])
    (logsIn w_blockNumber [mkWithdrawLog addr2 addr3 700 (sampleTx 2) 101])
    (fun bn => Resolved (mkBlock bn 1000000)).

(** Twelve initiated withdrawals in twelve blocks; block 111 cannot be
    looked up. *)
Definition twelveInitiated : list WithdrawLog :=
  map (fun i => mkWithdrawLog addr1 addr3 500 (sampleTx (Z.of_nat i)) (100 + Z.of_nat i))
    (seq 0 12).

Definition lostBlockChain : Chain :=
  mkChain (Resolved 200) noLogs noLogs
    (logsIn w_blockNumber twelveInitiated) noLogs
    (fun bn => if bn =? 111 then Rejected "missing response"
               else Resolved (mkBlock bn (1000000 + 12 * bn))).

(** Withdrawals initiated by two attesters, the first one again after
    the second. *)
Definition timelineLogs : list WithdrawLog :=
  [ mkWithdrawLog addr1 addr3 500 (sampleTx 1) 101;
    mkWithdrawLog addr2 addr3 600 (sampleTx 2) 102;
    mkWithdrawLog addr1 addr3 700 (sampleTx 3) 105 ].

Definition timelineChain : Chain :=
  mkChain (Resolved 200) noLogs noLogs (logsIn w_blockNumber timelineLogs) noLogs
    (fun bn => Resolved (mkBlock bn (1000000 + 12 * bn))).

(** * Properties *)

(** ** Objects as maps *)

Section JsObjectFacts.
Context {K V : Type} (K_eqb : K -> K -> bool).
Hypothesis K_eqb_spec : forall x y, reflect (x = y) (K_eqb x y).

Local Abbreviation get := (get (V:=V) K_eqb).
Local Abbreviation set := (set (V:=V) K_eqb).
Local Abbreviation mutate := (mutate (V:=V) K_eqb).
Local Abbreviation upsert := (upsert (V:=V) K_eqb).

Lemma get_set_same (o : jsobj K V) k v : get (set o k v) k = Some v.
Proof.
  induction o as [| [k' v'] o IH]; simpl.
  - destruct (K_eqb_spec k k); congruence.
  - destruct (K_eqb_spec k k') as [-> | Hne]; simpl.
    + destruct (K_eqb_spec k' k'); congruence.
    + destruct (K_eqb_spec k k'); congruence.
Qed.

Lemma get_set_other (o : jsobj K V) k v k' :
  k' <> k -> get (set o k v) k' = get o k'.
Proof.
  intros Hne. induction o as [| [k0 v0] o IH]; simpl.
  - destruct (K_eqb_spec k' k); congruence.
  - destruct (K_eqb_spec k k0) as [-> | Hk]; simpl.
    + destruct (K_eqb_spec k' k0); congruence.
    + destruct (K_eqb_spec k' k0); congruence.
Qed.

Lemma set_set (o : jsobj K V) k v v' : set (set o k v) k v' = set o k v'.
Proof.
  induction o as [| [k0 v0] o IH]; simpl.
  - destruct (K_eqb_spec k k); congruence.
  - destruct (K_eqb_spec k k0) as [-> | Hk]; simpl.
    + destruct (K_eqb_spec k0 k0); congruence.
    + destruct (K_eqb_spec k k0); congruence.
Qed.

Lemma get_None_keys (o : jsobj K V) k :
  get o k = None <-> existsb (K_eqb k) (Object_keys o) = false.
Proof.
  induction o as [| [k0 v0] o IH]; simpl; [tauto |].
  destruct (K_eqb_spec k k0); simpl; [split; discriminate | exact IH].
Qed.

Lemma keys_set (o : jsobj K V) k v :
  Object_keys (set o k v) = SetAdd K_eqb (Object_keys o) k.
Proof.
  unfold SetAdd. induction o as [| [k0 v0] o IH]; simpl; [reflexivity |].
  destruct (K_eqb_spec k k0); simpl; [reflexivity |].
  rewrite IH. now destruct (existsb (K_eqb k) (Object_keys o)).
Qed.

Lemma ensure_mutate (o : jsobj K V) k init f :
  mutate (match get o k with
          | None => set o k init
          | Some _ => o
          end) k f = upsert o k init f.
Proof.
  unfold mutate, upsert. destruct (get o k) as [v |] eqn:E.
  - now rewrite E.
  - now rewrite get_set_same, set_set.
Qed.

Lemma mutate_upsert (o : jsobj K V) k init f g :
  mutate (upsert o k init f) k g = upsert o k init (fun v => g (f v)).
Proof.
  unfold mutate, upsert. now rewrite get_set_same, set_set.
Qed.

Lemma get_upsert (o : jsobj K V) k init f k' :
  get (upsert o k init f) k' =
  if K_eqb k' k
  then Some (f (match get o k with Some v => v | None => init end))
  else get o k'.
Proof.
  unfold upsert. destruct (K_eqb_spec k' k) as [-> | Hne].
  - apply get_set_same.
  - now apply get_set_other.
Qed.

Lemma keys_upsert (o : jsobj K V) k init f :
  Object_keys (upsert o k init f) = SetAdd K_eqb (Object_keys o) k.
Proof. apply keys_set. Qed.

Section Aggregation.
Context {E : Type} (key : E -> K) (init : K -> V) (step : E -> V -> V).

Local Abbreviation aggregate := (aggregate K_eqb key init step).
Local Abbreviation eventsOf := (eventsOf K_eqb key).

Lemma get_aggregate (evs : list E) (o : jsobj K V) (k : K) :
  get (fold_left aggregate evs o) k =
  match get o k with
  | Some v => Some (fold_left (fun v e => step e v) (eventsOf k evs) v)
  | None =>
      match eventsOf k evs with
      | [] => None
      | _ :: _ => Some (fold_left (fun v e => step e v) (eventsOf k evs) (init k))
      end
  end.
Proof.
  revert o. induction evs as [| e evs IH]; intros o; simpl.
  - now destruct (get o k).
  - rewrite IH. unfold aggregate at 1. rewrite get_upsert.
    destruct (K_eqb_spec k (key e)) as [-> | Hne].
    + destruct (K_eqb_spec (key e) (key e)) as [_ | Hn]; [| congruence].
      simpl. now destruct (get o (key e)).
    + destruct (K_eqb_spec (key e) k) as [He | _]; [congruence |].
      reflexivity.
Qed.

Lemma keys_aggregate (evs : list E) (o : jsobj K V) :
  Object_keys (fold_left aggregate evs o) =
  fold_left (SetAdd K_eqb) (map key evs) (Object_keys o).
Proof.
  revert o. induction evs as [| e evs IH]; intros o; simpl; [reflexivity |].
  rewrite IH. unfold aggregate at 1. now rewrite keys_upsert.
Qed.
End Aggregation.

Lemma existsb_K_eqb (k : K) (l : list K) : existsb (K_eqb k) l = true <-> In k l.
Proof.
  rewrite existsb_exists. split.
  - intros (x & Hin & Heq). destruct (K_eqb_spec k x); congruence.
  - intros Hin. exists k. split; [exact Hin |].
    destruct (K_eqb_spec k k); congruence.
Qed.

Lemma SetAdd_NoDup (seen : list K) (x : K) :
  NoDup seen -> NoDup (SetAdd K_eqb seen x).
Proof.
  intros Hnd. unfold SetAdd.
  destruct (existsb (K_eqb x) seen) eqn:E; [exact Hnd |].
  apply NoDup_app; [exact Hnd | repeat constructor; simpl; tauto |].
  intros y Hy [<- | []].
  apply existsb_K_eqb in Hy. congruence.
Qed.

Lemma SetAdd_In (seen : list K) (x y : K) :
  In y (SetAdd K_eqb seen x) <-> In y seen \/ y = x.
Proof.
  unfold SetAdd. destruct (existsb (K_eqb x) seen) eqn:E.
  - apply existsb_K_eqb in E. split; [tauto |]. intros [H | ->]; assumption.
  - rewrite in_app_iff. simpl. intuition congruence.
Qed.

Lemma fold_SetAdd_NoDup (xs seen : list K) :
  NoDup seen -> NoDup (fold_left (SetAdd K_eqb) xs seen).
Proof.
  revert seen. induction xs as [| x xs IH]; intros seen Hnd; simpl; [exact Hnd |].
  apply IH. now apply SetAdd_NoDup.
Qed.

Lemma fold_SetAdd_In (xs seen : list K) (y : K) :
  In y (fold_left (SetAdd K_eqb) xs seen) <-> In y seen \/ In y xs.
Proof.
  revert seen. induction xs as [| x xs IH]; intros seen; simpl; [tauto |].
  rewrite IH, SetAdd_In. intuition congruence.
Qed.

Lemma In_get (o : jsobj K V) k v :
  NoDup (Object_keys o) -> In (k, v) o -> get o k = Some v.
Proof.
  induction o as [| [k0 v0] o IH]; simpl; [tauto |].
  intros Hnd [Heq | Hin].
  - injection Heq as -> ->. destruct (K_eqb_spec k k); congruence.
  - inversion Hnd as [| ? ? Hnotin Hnd']; subst.
    destruct (K_eqb_spec k k0) as [-> | _].
    + exfalso. apply Hnotin. apply (in_map fst) in Hin. exact Hin.
    + now apply IH.
Qed.

Lemma get_In (o : jsobj K V) k v : get o k = Some v -> In (k, v) o.
Proof.
  induction o as [| [k0 v0] o IH]; simpl; [discriminate |].
  destruct (K_eqb_spec k k0) as [-> | _].
  - intros [= ->]. now left.
  - intros H. right. now apply IH.
Qed.
End JsObjectFacts.

(** ** The chunk loop *)

Lemma chunkLoop_step {S : Type} (body : Z -> Z -> S -> S) (start toBlock : Z) (s : S) :
  chunkLoop body start toBlock s =
  if start <=? toBlock
  then chunkLoop body (start + CHUNK_SIZE) toBlock
         (body start (Z.min (start + CHUNK_SIZE - 1) toBlock) s)
  else s.
Proof.
  rewrite chunkLoop_equation_1.
  destruct (Z_le_gt_dec start toBlock) as [Hle | Hgt]; simpl;
    destruct (Z.leb_spec start toBlock); try lia; reflexivity.
Qed.

(** Induction along the starts the loop visits. *)
Lemma chunk_ind (toBlock : Z) (P : Z -> Prop) :
  (forall start, (start <= toBlock -> P (start + CHUNK_SIZE)) -> P start) ->
  forall start, P start.
Proof.
  intros step start.
  remember (Z.to_nat (toBlock - start + 1)) as n eqn:En.
  revert start En.
  induction n as [n IH] using lt_wf_ind.
  intros start En. apply step. intros Hle.
  apply (IH (Z.to_nat (toBlock - (start + CHUNK_SIZE) + 1))); [| reflexivity].
  unfold CHUNK_SIZE. lia.
Qed.

Lemma windows_acc (start toBlock : Z) (acc : list (Z * Z)) :
  chunkLoop (fun s e a => a ++ [(s, e)]) start toBlock acc =
  acc ++ windows start toBlock.
Proof.
  revert acc. pattern start. apply (chunk_ind toBlock). clear start.
  intros start IH acc. unfold windows.
  rewrite (chunkLoop_step _ start toBlock acc), (chunkLoop_step _ start toBlock []).
  destruct (Z.leb_spec start toBlock) as [Hle | Hgt].
  - rewrite (IH Hle), (IH Hle (_ ++ _)). unfold windows.
    rewrite <- !app_assoc. reflexivity.
  - now rewrite app_nil_r.
Qed.

Lemma windows_unfold (start toBlock : Z) :
  windows start toBlock =
  if start <=? toBlock
  then (start, Z.min (start + CHUNK_SIZE - 1) toBlock) :: windows (start + CHUNK_SIZE) toBlock
  else [].
Proof.
  unfold windows at 1. rewrite chunkLoop_step.
  destruct (start <=? toBlock); [| reflexivity].
  now rewrite windows_acc.
Qed.

(** The loop is a left fold of its body over the windows. *)
Lemma chunkLoop_fold {S : Type} (body : Z -> Z -> S -> S) (start toBlock : Z) (s : S) :
  chunkLoop body start toBlock s =
  fold_left (fun st w => body (fst w) (snd w) st) (windows start toBlock) s.
Proof.
  revert s. pattern start. apply (chunk_ind toBlock). clear start.
  intros start IH s.
  rewrite chunkLoop_step, windows_unfold.
  destruct (Z.leb_spec start toBlock) as [Hle | Hgt]; [| reflexivity].
  simpl. now rewrite (IH Hle).
Qed.

Lemma map_seq_shift {B : Type} (f : nat -> B) (n s m : nat) :
  map f (seq (n + s) m) = map (fun i => f (n + i)%nat) (seq s m).
Proof.
  revert s. induction m as [| m IH]; intros s; simpl; [reflexivity |].
  f_equal. rewrite <- Nat.add_succ_r. apply IH.
Qed.

Lemma blocksOf_split (s e t : Z) :
  s <= e + 1 -> e <= t ->
  blocksOf (s, e) ++ blocksOf (e + 1, t) = blocksOf (s, t).
Proof.
  intros Hs Ht. unfold blocksOf. simpl.
  replace (Z.to_nat (t - s + 1))
    with (Z.to_nat (e - s + 1) + Z.to_nat (t - (e + 1) + 1))%nat by lia.
  rewrite seq_app, map_app. f_equal.
  rewrite <- (Nat.add_0_r (0 + Z.to_nat (e - s + 1))), map_seq_shift.
  apply map_ext. intros i. lia.
Qed.

(** ** C3 *)

(** C3, as amended: for every 0 <= fromBlock <= toBlock with toBlock a
    safe integer (at most 2^53 - 1) the windows of the chunked scan are
    consecutive inclusive ranges [start, min(start + 9999, toBlock)]: the
    first starts at fromBlock, each next one starts right after the
    previous one ends, every window but the last holds exactly 10000 blocks
    and the last ends at toBlock ([tiles]); every window holds between 1
    and 10000 blocks; and the blocks of the windows, concatenated, are
    fromBlock, fromBlock + 1, ..., toBlock, each exactly once. *)
Theorem windows_partition (fromBlock toBlock : Z) :
  0 <= fromBlock -> fromBlock <= toBlock -> toBlock <= MAX_SAFE_INTEGER ->
  tiles fromBlock toBlock (windows fromBlock toBlock) /\
  Forall (fun w => snd w = Z.min (fst w + 9999) toBlock /\
                   1 <= snd w - fst w + 1 <= 10000)
    (windows fromBlock toBlock) /\
  flat_map blocksOf (windows fromBlock toBlock) = blocksOf (fromBlock, toBlock).
Proof.
  intros _ Hfrom _. revert Hfrom.
  pattern fromBlock. apply (chunk_ind toBlock). clear fromBlock.
  intros start IH Hle.
  rewrite windows_unfold.
  destruct (Z.leb_spec start toBlock) as [_ | Hgt]; [| lia].
  destruct (Z_le_gt_dec (start + CHUNK_SIZE) toBlock) as [Hnext | Hlast].
  - destruct (IH Hle Hnext) as (Ht & Hf & Hb).
    rewrite Z.min_l by (unfold CHUNK_SIZE in *; lia).
    split; [| split].
    + simpl. split; [reflexivity |].
      destruct (windows (start + CHUNK_SIZE) toBlock) as [| w ws] eqn:Ew;
        [destruct Ht |].
      split; [lia |].
      replace (start + CHUNK_SIZE - 1 + 1) with (start + CHUNK_SIZE) by lia.
      exact Ht.
    + constructor; [| exact Hf]. simpl. unfold CHUNK_SIZE in *. lia.
    + simpl. rewrite Hb.
      replace (start + CHUNK_SIZE) with (start + CHUNK_SIZE - 1 + 1) at 2 by lia.
      apply blocksOf_split; unfold CHUNK_SIZE in *; lia.
  - rewrite (windows_unfold (start + CHUNK_SIZE)).
    destruct (Z.leb_spec (start + CHUNK_SIZE) toBlock) as [Hc | _]; [lia |].
    rewrite Z.min_r by lia.
    split; [| split].
    + simpl. unfold CHUNK_SIZE in *. lia.
    + constructor; [| constructor]. simpl. unfold CHUNK_SIZE in *. lia.
    + simpl. now rewrite app_nil_r.
Qed.

Lemma windows_partition_witness :
  0 <= 5 /\ 5 <= 25003 /\ 25003 <= MAX_SAFE_INTEGER /\
  windows 5 25003 = [(5, 10004); (10005, 20004); (20005, 25003)] /\
  tiles 5 25003 (windows 5 25003).
Proof.
  split; [lia |]. split; [lia |].
  split; [unfold MAX_SAFE_INTEGER; lia |]. split; [reflexivity |].
  apply (windows_partition 5 25003); unfold MAX_SAFE_INTEGER; lia.
Defined.

(** C3 as stated fails: from 2^53 on the counter is a double that holds
    even integers only.  For the range from 2^53 to 2^53 + 20000 the loop
    ends by itself after three windows; [start + 10000 - 1] is rounded to
    [start + 10000], so the first window ends on block 2^53 + 10000, where
    the second one starts, and the second ends where the third starts:
    the windows overlap. *)
Lemma windows_overlap_counterexample :
  chunkWindowsDouble 8 9007199254740992 9007199254760992 =
  [ (9007199254740992, 9007199254750992);
    (9007199254750992, 9007199254760992);
    (9007199254760992, 9007199254760992) ]%float /\
  match chunkWindowsDouble 8 9007199254740992 9007199254760992 with
  | (_, end1) :: (start2, _) :: _ => start2 = end1
  | _ => False
  end.
Proof. split; reflexivity. Qed.

(** Up to the last safe integer the doubles of the loop are the integers
    of [windows]: the same numerals come out of both. *)
Example windows_double_at_the_bound :
  chunkWindowsDouble 8 9007199254725992 9007199254740991 =
  [ (9007199254725992, 9007199254735991);
    (9007199254735992, 9007199254740991) ]%float /\
  windows 9007199254725992 9007199254740991 =
  [ (9007199254725992, 9007199254735991);
    (9007199254735992, 9007199254740991) ].
Proof. split; reflexivity. Qed.

Example windows_double_small :
  chunkWindowsDouble 8 5 25003 = [(5, 10004); (10005, 20004); (20005, 25003)]%float /\
  windows 5 25003 = [(5, 10004); (10005, 20004); (20005, 25003)].
Proof. split; reflexivity. Qed.

Section AggregationFacts.
Context {K V E : Type} (K_eqb : K -> K -> bool).
Hypothesis K_eqb_spec : forall x y, reflect (x = y) (K_eqb x y).
Context (key : E -> K) (init : K -> V) (step : E -> V -> V).

(** The object built from an empty one lists, in order of first occurrence
    of the keys, the record each key's events build. *)
Lemma values_aggregate (evs : list E) :
  Object_values (fold_left (aggregate K_eqb key init step) evs []) =
  map (fun k => fold_left (fun v e => step e v) (eventsOf K_eqb key k evs) (init k))
    (spreadSet K_eqb (map key evs)).
Proof.
  set (o := fold_left (aggregate K_eqb key init step) evs []).
  assert (Hkeys : Object_keys o = spreadSet K_eqb (map key evs))
    by (apply (keys_aggregate K_eqb K_eqb_spec key init step evs [])).
  assert (Hnd : NoDup (Object_keys o)).
  { rewrite Hkeys. apply fold_SetAdd_NoDup; [exact K_eqb_spec | constructor]. }
  rewrite <- Hkeys. unfold Object_values, Object_keys. rewrite map_map.
  apply map_ext_in. intros [k v] Hin. simpl.
  pose proof (In_get K_eqb K_eqb_spec o k v Hnd Hin) as Hget.
  unfold o in Hget. rewrite (get_aggregate K_eqb K_eqb_spec) in Hget. simpl in Hget.
  destruct (eventsOf K_eqb key k evs); congruence.
Qed.
End AggregationFacts.

(** ** Sorting *)

Section SortFacts.
Context {A : Type} (cmp : A -> A -> Z).

Lemma sortInsert_perm (x : A) (l : list A) : Permutation (sortInsert cmp x l) (x :: l).
Proof.
  induction l as [| y l IH]; simpl; [reflexivity |].
  destruct (cmp x y <=? 0); [reflexivity |].
  rewrite IH. apply perm_swap.
Qed.

Lemma sort_perm (l : list A) : Permutation (sort cmp l) l.
Proof.
  induction l as [| x l IH]; simpl; [reflexivity |].
  rewrite sortInsert_perm. now constructor.
Qed.

Lemma sort_length (l : list A) : len (sort cmp l) = len l.
Proof. unfold len. now rewrite (Permutation_length (sort_perm l)). Qed.

Lemma sort_Forall (P : A -> Prop) (l : list A) : Forall P l -> Forall P (sort cmp l).
Proof.
  intros H. eapply Permutation_Forall; [| exact H].
  symmetry. apply sort_perm.
Qed.

Lemma sort_In (x : A) (l : list A) : In x (sort cmp l) <-> In x l.
Proof.
  split; apply Permutation_in; [| symmetry]; apply sort_perm.
Qed.

Lemma sortInsert_In (x y : A) (l : list A) :
  In y (sortInsert cmp x l) <-> y = x \/ In y l.
Proof.
  split.
  - intros H. apply (Permutation_in _ (sortInsert_perm x l)) in H.
    simpl in H. intuition congruence.
  - intros H. apply (Permutation_in _ (Permutation_sym (sortInsert_perm x l))).
    simpl. intuition congruence.
Qed.

(** Where an inserted element ends up relative to the others: it only
    passes elements it compares greater than. *)
Lemma precedes_sortInsert (a b x : A) (l : list A) :
  precedes a b (sortInsert cmp x l) ->
  precedes a b l \/ (a = x /\ In b l) \/ (b = x /\ In a l /\ 0 < cmp x a).
Proof.
  induction l as [| y l IH]; simpl.
  - intros [[_ []] | []].
  - destruct (Z.leb_spec (cmp x y) 0) as [Hle | Hgt]; simpl.
    + intros [[<- Hin] | H]; [right; left; now split | now left].
    + intros [[<- Hin] | H].
      * apply sortInsert_In in Hin. destruct Hin as [-> | Hin].
        -- right. right. repeat split; [now left | exact Hgt].
        -- left. left. now split.
      * destruct (IH H) as [Hp | [[-> Hin] | (-> & Hin & Hc)]].
        -- left. now right.
        -- right. left. split; [reflexivity | now right].
        -- right. right. repeat split; [now right | exact Hc].
Qed.
End SortFacts.

(** Sorting by a numeric field, largest first: [(a, b) => b.f - a.f]. *)
Section SortDescending.
Context {A : Type} (f : A -> Z).

Let cmp : A -> A -> Z := fun a b => f b - f a.

Lemma sortInsert_sorted (x : A) (l : list A) :
  StronglySorted (fun a b => f a >= f b) l ->
  StronglySorted (fun a b => f a >= f b) (sortInsert cmp x l).
Proof.
  induction l as [| y l IH]; simpl; intros Hs.
  - repeat constructor.
  - inversion Hs as [| ? ? Hs' Hall]; subst.
    destruct (Z.leb_spec (cmp x y) 0) as [Hle | Hgt]; unfold cmp in *.
    + constructor; [exact Hs |]. constructor; [lia |].
      eapply Forall_impl; [| exact Hall]. simpl. intros z Hz. lia.
    + constructor; [now apply IH |].
      apply Forall_forall. intros z Hz.
      apply sortInsert_In in Hz. destruct Hz as [-> | Hz]; [lia |].
      rewrite Forall_forall in Hall. now apply Hall.
Qed.

Lemma sort_sorted (l : list A) : StronglySorted (fun a b => f a >= f b) (sort cmp l).
Proof.
  induction l as [| x l IH]; simpl; [constructor |].
  now apply sortInsert_sorted.
Qed.

(** Stability: elements with the same value of the field keep their order. *)
Lemma sort_stable (a b : A) (l : list A) :
  f a = f b -> precedes a b (sort cmp l) -> precedes a b l.
Proof.
  intros Hf. induction l as [| x l IH]; simpl; [tauto |].
  intros H. apply precedes_sortInsert in H.
  destruct H as [Hp | [[-> Hin] | (-> & Hin & Hc)]].
  - right. now apply IH.
  - left. split; [reflexivity |]. now apply sort_In in Hin.
  - unfold cmp in Hc. lia.
Qed.
End SortDescending.

(** ** Order of first occurrence *)

Lemma precedes_split {A : Type} (a b : A) (l : list A) :
  precedes a b l <-> exists l1 l2 l3, l = l1 ++ a :: l2 ++ b :: l3.
Proof.
  split.
  - induction l as [| x l IH]; simpl; [tauto |].
    intros [[-> Hin] | H].
    + apply in_split in Hin. destruct Hin as (l2 & l3 & ->).
      now exists [], l2, l3.
    + destruct (IH H) as (l1 & l2 & l3 & ->). now exists (x :: l1), l2, l3.
  - intros (l1 & l2 & l3 & ->).
    induction l1 as [| x l1 IH]; simpl; [| now right].
    left. split; [reflexivity |]. apply in_or_app. right. now left.
Qed.

Lemma precedes_In {A : Type} (a b : A) (l : list A) :
  precedes a b l -> In a l /\ In b l.
Proof.
  induction l as [| x l IH]; simpl; [tauto |].
  intros [[-> Hin] | H]; [tauto |]. apply IH in H. tauto.
Qed.

Lemma precedes_map_inv {A B : Type} (g : A -> B) (p q : B) (l : list A) :
  precedes p q (map g l) -> exists a b, g a = p /\ g b = q /\ precedes a b l.
Proof.
  induction l as [| x l IH]; simpl; [tauto |].
  intros [[Hx Hin] | H].
  - apply in_map_iff in Hin. destruct Hin as (b & Hb & Hin).
    exists x, b. repeat split; auto.
  - destruct (IH H) as (a & b & Ha & Hb & Hp). exists a, b. auto.
Qed.

Lemma precedes_snoc {A : Type} (a b k : A) (l : list A) :
  precedes a b (l ++ [k]) -> precedes a b l \/ (b = k /\ In a l).
Proof.
  induction l as [| x l IH]; simpl.
  - intros [[_ []] | []].
  - intros [[-> Hin] | H].
    + apply in_app_or in Hin. destruct Hin as [Hin | [<- | []]]; [left | right]; auto.
    + destruct (IH H) as [Hp | [-> Hin]]; auto.
Qed.

Lemma firstSeen_app_In (k : string) (l l' : list string) :
  In k l -> firstSeen k (l ++ l') = firstSeen k l.
Proof.
  induction l as [| x l IH]; simpl; [tauto |].
  intros Hin. destruct (String.eqb_spec k x) as [_ | Hne]; [reflexivity |].
  f_equal. apply IH. destruct Hin as [-> | Hin]; [congruence | exact Hin].
Qed.

Lemma firstSeen_In_lt (k : string) (l : list string) :
  In k l -> (firstSeen k l < length l)%nat.
Proof.
  induction l as [| x l IH]; simpl; [tauto |].
  intros Hin. destruct (String.eqb_spec k x) as [_ | Hne]; [lia |].
  destruct Hin as [-> | Hin]; [congruence |]. apply IH in Hin. lia.
Qed.

Lemma firstSeen_snoc_new (k : string) (l : list string) :
  ~ In k l -> firstSeen k (l ++ [k]) = length l.
Proof.
  induction l as [| x l IH]; simpl; intros Hn.
  - now rewrite String.eqb_refl.
  - destruct (String.eqb_spec k x) as [-> | Hne]; [tauto |].
    f_equal. apply IH. tauto.
Qed.

Lemma encounterOrder_In (k : string) (ks : list string) :
  In k (encounterOrder ks) <-> In k ks.
Proof.
  unfold encounterOrder, spreadSet.
  rewrite (fold_SetAdd_In String.eqb String.eqb_spec). simpl. tauto.
Qed.

(** In [encounterOrder] an address stands before another exactly when its
    first occurrence in the stream comes first. *)
Lemma encounterOrder_firstSeen (a b : string) (ks : list string) :
  precedes a b (encounterOrder ks) -> (firstSeen a ks < firstSeen b ks)%nat.
Proof.
  induction ks as [| k ks IH] using rev_ind; [simpl; tauto |].
  unfold encounterOrder, spreadSet. rewrite fold_left_app. simpl.
  fold (spreadSet String.eqb ks). fold (encounterOrder ks).
  unfold SetAdd.
  destruct (existsb (String.eqb k) (encounterOrder ks)) eqn:Eseen.
  - intros H. destruct (precedes_In _ _ _ H) as [Ha Hb].
    apply -> encounterOrder_In in Ha. apply -> encounterOrder_In in Hb.
    rewrite !firstSeen_app_In by assumption. now apply IH.
  - intros H. apply precedes_snoc in H. destruct H as [H | [-> Ha]].
    + destruct (precedes_In _ _ _ H) as [Ha Hb].
      apply -> encounterOrder_In in Ha. apply -> encounterOrder_In in Hb.
      rewrite !firstSeen_app_In by assumption. now apply IH.
    + apply -> encounterOrder_In in Ha.
      rewrite firstSeen_app_In by assumption.
      rewrite firstSeen_snoc_new.
      * now apply firstSeen_In_lt.
      * intros Hk. apply <- encounterOrder_In in Hk.
        apply <- (existsb_K_eqb String.eqb String.eqb_spec) in Hk. congruence.
Qed.

Lemma spreadSet_length_nodup (ks : list string) :
  length (spreadSet String.eqb ks) = length (nodup string_dec ks).
Proof.
  apply Permutation_length, NoDup_Permutation.
  - apply fold_SetAdd_NoDup; [exact String.eqb_spec | constructor].
  - apply NoDup_nodup.
  - intros k. rewrite nodup_In. apply encounterOrder_In.
Qed.

(** ** The scan as a fold over the consumed events *)

Lemma len_app {A : Type} (l l' : list A) : len (l ++ l') = len l + len l'.
Proof. unfold len. rewrite length_app. lia. Qed.

Lemma len_cons {A : Type} (x : A) (l : list A) : len (x :: l) = len l + 1.
Proof. unfold len. simpl. lia. Qed.

Lemma onProofVerified_aggregate (st : ProofScan) (event : ProofVerifiedLog) :
  onProofVerified st event =
  mkProofScan (aggregateProofs (proverStats st) event) (totalProofs st + 1) (ps_stderr st).
Proof.
  unfold onProofVerified, aggregateProofs, aggregate.
  rewrite (ensure_mutate String.eqb String.eqb_spec).
  rewrite (mutate_upsert String.eqb String.eqb_spec).
  reflexivity.
Qed.

Lemma fold_onProofVerified (events : list ProofVerifiedLog) (st : ProofScan) :
  fold_left onProofVerified events st =
  mkProofScan (fold_left aggregateProofs events (proverStats st))
    (totalProofs st + len events) (ps_stderr st).
Proof.
  revert st. induction events as [| e events IH]; intros st; simpl.
  - destruct st. simpl. f_equal. unfold len. simpl. lia.
  - rewrite IH, onProofVerified_aggregate. simpl. f_equal.
    rewrite len_cons. lia.
Qed.

Lemma fold_proofWindow (queryFilter : Z -> Z -> outcome (list ProofVerifiedLog))
  (ws : list (Z * Z)) (st : ProofScan) :
  fold_left (fun st w => proofWindow queryFilter (fst w) (snd w) st) ws st =
  mkProofScan (fold_left aggregateProofs (consumed queryFilter ws) (proverStats st))
    (totalProofs st + len (consumed queryFilter ws))
    (ps_stderr st ++ failures queryFilter ws).
Proof.
  revert st. induction ws as [| [s e] ws IH]; intros st; simpl.
  - destruct st. simpl. f_equal; [unfold len; simpl; lia | now rewrite app_nil_r].
  - rewrite IH. unfold proofWindow. simpl.
    destruct (queryFilter s e) as [events | message]; simpl.
    + rewrite fold_onProofVerified. simpl.
      rewrite fold_left_app, len_app. f_equal. lia.
    + rewrite <- app_assoc. reflexivity.
Qed.

Lemma scanProofs_consumed (queryFilter : Z -> Z -> outcome (list ProofVerifiedLog))
  (fromBlock toBlock : Z) :
  scanProofs queryFilter fromBlock toBlock =
  mkProofScan
    (fold_left aggregateProofs (consumed queryFilter (windows fromBlock toBlock)) [])
    (len (consumed queryFilter (windows fromBlock toBlock)))
    (failures queryFilter (windows fromBlock toBlock)).
Proof.
  unfold scanProofs. rewrite chunkLoop_fold, fold_proofWindow. reflexivity.
Qed.

Lemma fold_proofStep (evs : list ProofVerifiedLog) (r : ProverRecord) :
  fold_left (fun v e => proofStep e v) evs r =
  mkProverRecord (pr_address r) (proofCount r + len evs)
    (blocks r ++ map proofBlockOf evs).
Proof.
  revert r. induction evs as [| e evs IH]; intros r; simpl.
  - destruct r. simpl. f_equal; [unfold len; simpl; lia | now rewrite app_nil_r].
  - rewrite IH. simpl. rewrite len_cons, <- app_assoc. f_equal. lia.
Qed.

Lemma proverStats_values (evs : list ProofVerifiedLog) :
  Object_values (fold_left aggregateProofs evs []) =
  map (proverRecordOf evs) (encounterOrder (map pv_args_proverId evs)).
Proof.
  unfold aggregateProofs. rewrite (values_aggregate String.eqb String.eqb_spec).
  apply map_ext. intros k. now rewrite fold_proofStep.
Qed.

Lemma proverStats_keys (evs : list ProofVerifiedLog) :
  Object_keys (fold_left aggregateProofs evs []) =
  encounterOrder (map pv_args_proverId evs).
Proof.
  unfold aggregateProofs.
  now rewrite (keys_aggregate String.eqb String.eqb_spec).
Qed.

(** ** C6 *)

(** C6: after the scan has consumed the proof-verified events of the
    windows it could read, totalProofs is the number of those events and
    uniqueProvers is the number of distinct prover addresses among them. *)
Theorem proof_totals (queryFilter : Z -> Z -> outcome (list ProofVerifiedLog))
  (fromBlock toBlock : Z) :
  let events := consumed queryFilter (windows fromBlock toBlock) in
  let data := snd (indexProofEvents queryFilter fromBlock toBlock) in
  po_totalProofs data = len events /\
  po_uniqueProvers data = len (nodup string_dec (map pv_args_proverId events)).
Proof.
  intros events data. unfold data, indexProofEvents. simpl.
  rewrite scanProofs_consumed. simpl. split; [reflexivity |].
  rewrite proverStats_keys. unfold len, encounterOrder.
  now rewrite spreadSet_length_nodup.
Qed.

(** ** C9 *)

Lemma precedes_total {A : Type} (a b : A) (l : list A) :
  In a l -> In b l -> a <> b -> precedes a b l \/ precedes b a l.
Proof.
  induction l as [| x l IH]; simpl; [tauto |].
  intros [Ha | Ha] [Hb | Hb] Hne.
  - congruence.
  - left. left. now split.
  - right. left. now split.
  - destruct (IH Ha Hb Hne); [left | right]; now right.
Qed.

(** C9: the prover list of the snapshot holds one record per address
    encountered, is sorted by proofCount, largest first, and of two provers
    of the list with the same proofCount the one stands before the other
    exactly when its address occurred first in the consumed event stream. *)
Theorem provers_sorted_stable (queryFilter : Z -> Z -> outcome (list ProofVerifiedLog))
  (fromBlock toBlock : Z) :
  let events := consumed queryFilter (windows fromBlock toBlock) in
  let out := provers (snd (indexProofEvents queryFilter fromBlock toBlock)) in
  Permutation out
    (map (proverRecordOf events) (encounterOrder (map pv_args_proverId events))) /\
  StronglySorted (fun a b => proofCount a >= proofCount b) out /\
  forall p q, In p out -> In q out -> proofCount p = proofCount q ->
    (precedes p q out <->
     (firstSeen (pr_address p) (map pv_args_proverId events) <
      firstSeen (pr_address q) (map pv_args_proverId events))%nat).
Proof.
  intros events out. unfold out, indexProofEvents. simpl.
  rewrite scanProofs_consumed. simpl. fold events.
  unfold sortedProvers. rewrite proverStats_values.
  set (recs := map (proverRecordOf events) (encounterOrder (map pv_args_proverId events))).
  assert (Hfwd : forall p q, proofCount p = proofCount q ->
             precedes p q (sort (fun a b => proofCount b - proofCount a) recs) ->
             (firstSeen (pr_address p) (map pv_args_proverId events) <
              firstSeen (pr_address q) (map pv_args_proverId events))%nat).
  { intros p q Hc Hp.
    apply (sort_stable proofCount) in Hp; [| exact Hc].
    apply precedes_map_inv in Hp. destruct Hp as (a & b & <- & <- & Hp).
    simpl. now apply encounterOrder_firstSeen. }
  split; [apply sort_perm |]. split; [apply sort_sorted |].
  intros p q Hp Hq Hc. split; [now apply Hfwd |].
  intros Hlt.
  assert (Hne : p <> q) by (intros ->; lia).
  destruct (precedes_total p q _ Hp Hq Hne) as [H | H]; [exact H |].
  apply Hfwd in H; [lia | now symmetry].
Qed.

Lemma onSlashed_aggregate (st : SlashScan) (event : SlashedLog) :
  onSlashed st event =
  mkSlashScan (aggregateSlashes (slashStats st) event) (totalSlashes st + 1)
    (totalAmountSlashed st + sl_args_amount event) (ss_stderr st).
Proof.
  unfold onSlashed, aggregateSlashes, aggregate.
  rewrite (ensure_mutate String.eqb String.eqb_spec).
  rewrite !(mutate_upsert String.eqb String.eqb_spec).
  reflexivity.
Qed.

Lemma sumZ_app (l l' : list Z) : sumZ (l ++ l') = sumZ l + sumZ l'.
Proof. induction l as [| x l IH]; simpl; [reflexivity | rewrite IH; lia]. Qed.

Lemma fold_onSlashed (events : list SlashedLog) (st : SlashScan) :
  fold_left onSlashed events st =
  mkSlashScan (fold_left aggregateSlashes events (slashStats st))
    (totalSlashes st + len events)
    (totalAmountSlashed st + sumZ (map sl_args_amount events)) (ss_stderr st).
Proof.
  revert st. induction events as [| e events IH]; intros st; simpl.
  - destruct st. simpl. f_equal; unfold len; simpl; lia.
  - rewrite IH, onSlashed_aggregate. simpl. f_equal; [rewrite len_cons |]; lia.
Qed.

Lemma fold_slashWindow (queryFilter : Z -> Z -> outcome (list SlashedLog))
  (ws : list (Z * Z)) (st : SlashScan) :
  fold_left (fun st w => slashWindow queryFilter (fst w) (snd w) st) ws st =
  mkSlashScan (fold_left aggregateSlashes (consumed queryFilter ws) (slashStats st))
    (totalSlashes st + len (consumed queryFilter ws))
    (totalAmountSlashed st + sumZ (map sl_args_amount (consumed queryFilter ws)))
    (ss_stderr st ++ failures queryFilter ws).
Proof.
  revert st. induction ws as [| [s e] ws IH]; intros st; simpl.
  - destruct st. simpl. f_equal; [unfold len; simpl; lia | lia | now rewrite app_nil_r].
  - rewrite IH. unfold slashWindow. simpl.
    destruct (queryFilter s e) as [events | message]; simpl.
    + rewrite fold_onSlashed. simpl.
      rewrite fold_left_app, len_app, map_app, sumZ_app. f_equal; lia.
    + rewrite <- app_assoc. reflexivity.
Qed.

Lemma scanSlashes_consumed (queryFilter : Z -> Z -> outcome (list SlashedLog))
  (fromBlock toBlock : Z) :
  scanSlashes queryFilter fromBlock toBlock =
  mkSlashScan
    (fold_left aggregateSlashes (consumed queryFilter (windows fromBlock toBlock)) [])
    (len (consumed queryFilter (windows fromBlock toBlock)))
    (sumZ (map sl_args_amount (consumed queryFilter (windows fromBlock toBlock))))
    (failures queryFilter (windows fromBlock toBlock)).
Proof.
  unfold scanSlashes. rewrite chunkLoop_fold, fold_slashWindow. reflexivity.
Qed.

Lemma fold_slashStep (evs : list SlashedLog) (r : AttesterSlash) :
  fold_left (fun v e => slashStep e v) evs r =
  mkAttesterSlash (as_address r) (slashCount r + len evs)
    (as_totalAmountSlashed r + sumZ (map sl_args_amount evs))
    (slashes r ++ map slashDetailOf evs).
Proof.
  revert r. induction evs as [| e evs IH]; intros r; simpl.
  - destruct r. simpl. f_equal; [unfold len; simpl; lia | lia | now rewrite app_nil_r].
  - rewrite IH. simpl. rewrite len_cons, <- app_assoc. f_equal; lia.
Qed.

Lemma slashStats_values (evs : list SlashedLog) :
  Object_values (fold_left aggregateSlashes evs []) =
  map (slashRecordOf evs) (encounterOrder (map sl_args_attester evs)).
Proof.
  unfold aggregateSlashes. rewrite (values_aggregate String.eqb String.eqb_spec).
  apply map_ext. intros k. now rewrite fold_slashStep.
Qed.

(** The decimal numeral determines the integer. *)
Lemma toString_inj (x y : Z) : toString x = toString y -> x = y.
Proof.
  unfold toString. intros H.
  assert (Hnn : forall z, Z.to_int z <> Decimal.Pos Decimal.Nil /\
                          Z.to_int z <> Decimal.Neg Decimal.Nil).
  { intros [| p | p]; simpl; split; try discriminate;
      intros [= Hp]; now apply (DecimalPos.Unsigned.to_uint_nonnil p). }
  apply (f_equal NilZero.int_of_string) in H.
  rewrite !NilZero.isi in H by apply Hnn.
  injection H as H. now apply DecimalZ.to_int_inj.
Qed.

(** ** C5 *)

(** C5: the total amount slashed of the snapshot is the decimal numeral of
    the exact integer sum of the amounts of all consumed slash events, the
    total of every attester record is the numeral of the exact sum of the
    amounts of that attester's events, and a numeral stands for one integer
    only; the integers are unbounded, so nothing is rounded at 2^128 or
    beyond. *)
Theorem slash_totals_exact (queryFilter : Z -> Z -> outcome (list SlashedLog))
  (fromBlock toBlock : Z) :
  let events := consumed queryFilter (windows fromBlock toBlock) in
  let data := snd (indexSlashEvents queryFilter fromBlock toBlock) in
  so_totalAmountSlashed data = toString (sumZ (map sl_args_amount events)) /\
  Permutation (map asr_address (so_attesters data))
    (encounterOrder (map sl_args_attester events)) /\
  Forall (fun r =>
            asr_totalAmountSlashed r =
            toString (sumZ (map sl_args_amount
                              (eventsOf String.eqb sl_args_attester (asr_address r) events))))
    (so_attesters data) /\
  (forall x y, toString x = toString y -> x = y).
Proof.
  intros events data. unfold data, indexSlashEvents. simpl.
  rewrite scanSlashes_consumed. simpl. fold events.
  unfold sortedSlashAttesters. rewrite slashStats_values.
  split; [reflexivity |]. split; [| split; [| exact toString_inj]].
  - rewrite (Permutation_map asr_address (sort_perm _ _)).
    rewrite !map_map. simpl. now rewrite map_id.
  - apply sort_Forall. apply Forall_forall. intros r Hr.
    rewrite map_map in Hr. apply in_map_iff in Hr.
    destruct Hr as (k & <- & _). reflexivity.
Qed.

(** ** The withdrawal records *)

Lemma onInitiated_aggregate (now : Z) (ts : jsobj Z Z)
  (o : jsobj string AttesterExit) (event : WithdrawLog) :
  onInitiated now ts o event = aggregateExits now ts o (inl event).
Proof.
  unfold onInitiated, aggregateExits, aggregate.
  rewrite (ensure_mutate String.eqb String.eqb_spec).
  rewrite !(mutate_upsert String.eqb String.eqb_spec).
  reflexivity.
Qed.

Lemma onFinalized_aggregate (now : Z) (ts : jsobj Z Z)
  (o : jsobj string AttesterExit) (event : WithdrawLog) :
  onFinalized o event = aggregateExits now ts o (inr event).
Proof.
  unfold onFinalized, aggregateExits, aggregate.
  rewrite (ensure_mutate String.eqb String.eqb_spec).
  rewrite !(mutate_upsert String.eqb String.eqb_spec).
  reflexivity.
Qed.

Lemma buildAttesterStats_fold (now : Z) (ts : jsobj Z Z) (inits fins : list WithdrawLog) :
  buildAttesterStats now ts inits fins =
  fold_left (aggregateExits now ts) (map inl inits ++ map inr fins) [].
Proof.
  unfold buildAttesterStats. rewrite fold_left_app.
  generalize (@nil (string * AttesterExit)) as o.
  induction inits as [| e inits IH]; intros o; simpl.
  - revert o. induction fins as [| e fins IH]; intros o; simpl; [reflexivity |].
    now rewrite IH, (onFinalized_aggregate now ts).
  - now rewrite IH, onInitiated_aggregate.
Qed.

Lemma fold_exitStep_inl (now : Z) (ts : jsobj Z Z) (evs : list WithdrawLog)
  (r : AttesterExit) :
  fold_left (fun v e => exitStep now ts e v) (map inl evs) r =
  mkAttesterExit (ae_address r) (initiatedCount r + len evs) (finalizedCount r)
    (totalInitiatedAmount r + sumZ (map w_args_amount evs)) (totalFinalizedAmount r)
    (initiated r ++ map (initiatedDetailOf now ts) evs) (finalized r).
Proof.
  revert r. induction evs as [| e evs IH]; intros r; simpl.
  - destruct r. simpl. f_equal; [unfold len; simpl; lia | lia | now rewrite app_nil_r].
  - rewrite IH. simpl. rewrite len_cons, <- app_assoc. f_equal; lia.
Qed.

Lemma fold_exitStep_inr (now : Z) (ts : jsobj Z Z) (evs : list WithdrawLog)
  (r : AttesterExit) :
  fold_left (fun v e => exitStep now ts e v) (map inr evs) r =
  mkAttesterExit (ae_address r) (initiatedCount r) (finalizedCount r + len evs)
    (totalInitiatedAmount r) (totalFinalizedAmount r + sumZ (map w_args_amount evs))
    (initiated r) (finalized r ++ map finalizedDetailOf evs).
Proof.
  revert r. induction evs as [| e evs IH]; intros r; simpl.
  - destruct r. simpl. f_equal; [unfold len; simpl; lia | lia | now rewrite app_nil_r].
  - rewrite IH. simpl. rewrite len_cons, <- app_assoc. f_equal; lia.
Qed.

Lemma eventsOf_lifecycle (k : string) (inits fins : list WithdrawLog) :
  eventsOf String.eqb lifecycleKey k (map inl inits ++ map inr fins) =
  map inl (withdrawalsOf k inits) ++ map inr (withdrawalsOf k fins).
Proof.
  unfold eventsOf, withdrawalsOf, eventsOf. rewrite filter_app. f_equal.
  - induction inits as [| e l IH]; simpl; [reflexivity |].
    destruct (String.eqb (w_args_attester e) k); simpl; now rewrite IH.
  - induction fins as [| e l IH]; simpl; [reflexivity |].
    destruct (String.eqb (w_args_attester e) k); simpl; now rewrite IH.
Qed.

Lemma lifecycle_keys (inits fins : list WithdrawLog) :
  map lifecycleKey (map inl inits ++ map inr fins) =
  map w_args_attester inits ++ map w_args_attester fins.
Proof. now rewrite map_app, !map_map. Qed.

Lemma attesterStats_values (now : Z) (ts : jsobj Z Z) (inits fins : list WithdrawLog) :
  Object_values (buildAttesterStats now ts inits fins) =
  map (attesterExitOf now ts inits fins)
    (encounterOrder (map w_args_attester inits ++ map w_args_attester fins)).
Proof.
  rewrite buildAttesterStats_fold. unfold aggregateExits.
  rewrite (values_aggregate String.eqb String.eqb_spec), lifecycle_keys.
  apply map_ext. intros k.
  rewrite eventsOf_lifecycle, fold_left_app, fold_exitStep_inl, fold_exitStep_inr.
  reflexivity.
Qed.

Lemma attesterStats_keys (now : Z) (ts : jsobj Z Z) (inits fins : list WithdrawLog) :
  Object_keys (buildAttesterStats now ts inits fins) =
  encounterOrder (map w_args_attester inits ++ map w_args_attester fins).
Proof.
  rewrite buildAttesterStats_fold. unfold aggregateExits.
  now rewrite (keys_aggregate String.eqb String.eqb_spec), lifecycle_keys.
Qed.

(** ** The summary loop *)

Lemma fold_onUnfinalized (address : string) (P : list InitiatedDetail) (t : ExitTotals) :
  fold_left (onUnfinalized address) P t =
  mkExitTotals (totalInitiated t) (totalFinalized t)
    (pendingCanFinalize t + len (filter canFinalize P))
    (pendingCannotFinalize t + len (filter (fun d => negb (canFinalize d)) P))
    (pendingExits t ++ map (mkPendingExit address) P).
Proof.
  revert t. induction P as [| d P IH]; intros t; simpl.
  - destruct t. simpl. f_equal; [unfold len; simpl; lia .. | now rewrite app_nil_r].
  - rewrite IH. unfold onUnfinalized.
    destruct (canFinalize d); simpl; rewrite len_cons, <- app_assoc; f_equal; lia.
Qed.

Lemma onAttester_totals (t : ExitTotals) (a : AttesterExit) :
  onAttester t a =
  mkExitTotals (totalInitiated t + initiatedCount a) (totalFinalized t + finalizedCount a)
    (pendingCanFinalize t + len (filter canFinalize (unfinalizedOf a)))
    (pendingCannotFinalize t +
     len (filter (fun d => negb (canFinalize d)) (unfinalizedOf a)))
    (pendingExits t ++ map (mkPendingExit (ae_address a)) (unfinalizedOf a)).
Proof.
  unfold onAttester, unfinalizedOf.
  destruct (0 <? initiatedCount a - finalizedCount a).
  - now rewrite fold_onUnfinalized.
  - simpl. f_equal; [unfold len; simpl; lia .. | now rewrite app_nil_r].
Qed.

Lemma fold_onAttester (l : list AttesterExit) (t : ExitTotals) :
  fold_left onAttester l t =
  mkExitTotals (totalInitiated t + sumZ (map initiatedCount l))
    (totalFinalized t + sumZ (map finalizedCount l))
    (pendingCanFinalize t +
     len (filter (fun p => canFinalize (exit p)) (pendingOfAttesters l)))
    (pendingCannotFinalize t +
     len (filter (fun p => negb (canFinalize (exit p))) (pendingOfAttesters l)))
    (pendingExits t ++ pendingOfAttesters l).
Proof.
  revert t. induction l as [| a l IH]; intros t; simpl.
  - destruct t. simpl. f_equal; [unfold len; simpl; lia .. | now rewrite app_nil_r].
  - rewrite IH, onAttester_totals. simpl.
    rewrite !filter_app, !len_app, <- app_assoc.
    assert (Hmap : forall (g : InitiatedDetail -> bool) P,
               len (filter (fun p => g (exit p)) (map (mkPendingExit (ae_address a)) P)) =
               len (filter g P)).
    { intros g P. unfold len. f_equal.
      induction P as [| d P IHP]; simpl; [reflexivity |].
      destruct (g d); simpl; now rewrite IHP. }
    rewrite (Hmap canFinalize), (Hmap (fun d => negb (canFinalize d))).
    f_equal; lia.
Qed.

Lemma summarize_totals (stats : jsobj string AttesterExit) :
  summarize stats =
  mkExitTotals (sumZ (map initiatedCount (Object_values stats)))
    (sumZ (map finalizedCount (Object_values stats)))
    (len (filter (fun p => canFinalize (exit p)) (pendingOfAttesters (Object_values stats))))
    (len (filter (fun p => negb (canFinalize (exit p)))
            (pendingOfAttesters (Object_values stats))))
    (pendingOfAttesters (Object_values stats)).
Proof. unfold summarize. now rewrite fold_onAttester. Qed.

(** [initiated.slice(-pendingCount)] under the guard [pendingCount > 0] is
    the tail of [max(0, pendingCount)] entries. *)
Lemma unfinalizedOf_lastn (a : AttesterExit) :
  len (initiated a) = initiatedCount a -> 0 <= finalizedCount a ->
  unfinalizedOf a =
  lastn (Z.to_nat (Z.max 0 (initiatedCount a - finalizedCount a))) (initiated a).
Proof.
  intros Hlen Hfin. unfold unfinalizedOf, lastn.
  destruct (Z.ltb_spec 0 (initiatedCount a - finalizedCount a)) as [Hpos | Hle].
  - unfold slice, clampIndex.
    destruct (Z.ltb_spec (- (initiatedCount a - finalizedCount a)) 0); [| lia].
    rewrite firstn_all2.
    + f_equal. unfold len in *. lia.
    + rewrite length_skipn. unfold len in *. lia.
  - rewrite Z.max_l by lia. simpl. rewrite Nat.sub_0_r. now rewrite skipn_all.
Qed.

Lemma lastn_length {A : Type} (n : nat) (l : list A) :
  length (lastn n l) = Nat.min n (length l).
Proof. unfold lastn. rewrite length_skipn. lia. Qed.

Lemma pendingOf_same (k k' : string) (P : list InitiatedDetail) :
  pendingOf k (map (mkPendingExit k') P) =
  if String.eqb k' k then map (mkPendingExit k') P else [].
Proof.
  unfold pendingOf. induction P as [| d P IH]; simpl.
  - now destruct (String.eqb k' k).
  - rewrite IH. now destruct (String.eqb k' k).
Qed.

Lemma pendingOf_app (k : string) (l l' : list PendingExit) :
  pendingOf k (l ++ l') = pendingOf k l ++ pendingOf k l'.
Proof. apply filter_app. Qed.

Lemma pendingOfAttesters_cons (x : AttesterExit) (l : list AttesterExit) :
  pendingOfAttesters (x :: l) =
  map (mkPendingExit (ae_address x)) (unfinalizedOf x) ++ pendingOfAttesters l.
Proof. reflexivity. Qed.

Lemma pendingOf_absent (k : string) (l : list AttesterExit) :
  ~ In k (map ae_address l) -> pendingOf k (pendingOfAttesters l) = [].
Proof.
  induction l as [| x l IH]; intros Hn; [reflexivity |].
  simpl in Hn.
  rewrite pendingOfAttesters_cons, pendingOf_app, pendingOf_same.
  destruct (String.eqb_spec (ae_address x) k) as [He | _]; [tauto |].
  simpl. apply IH. tauto.
Qed.

Lemma pendingOf_attester (a : AttesterExit) (l : list AttesterExit) :
  NoDup (map ae_address l) -> In a l ->
  pendingOf (ae_address a) (pendingOfAttesters l) =
  map (mkPendingExit (ae_address a)) (unfinalizedOf a).
Proof.
  induction l as [| x l IH]; intros Hnd Hin; [destruct Hin |].
  simpl in Hnd. inversion Hnd as [| ? ? Hnotin Hnd']; subst.
  rewrite pendingOfAttesters_cons, pendingOf_app, pendingOf_same.
  destruct Hin as [-> | Hin].
  - rewrite String.eqb_refl, pendingOf_absent by assumption. now rewrite app_nil_r.
  - destruct (String.eqb_spec (ae_address x) (ae_address a)) as [He | _].
    + exfalso. apply Hnotin. rewrite He. now apply in_map.
    + simpl. now apply IH.
Qed.

Lemma Permutation_filter {A : Type} (g : A -> bool) (l l' : list A) :
  Permutation l l' -> Permutation (filter g l) (filter g l').
Proof.
  induction 1 as [| x l l' _ IH | x y l | l l' l'' _ IH1 _ IH2]; simpl.
  - constructor.
  - destruct (g x); [now constructor | exact IH].
  - destruct (g x), (g y); try reflexivity. apply perm_swap.
  - now transitivity (filter g l').
Qed.

Lemma attesterStats_addresses (now : Z) (ts : jsobj Z Z) (inits fins : list WithdrawLog) :
  map ae_address (Object_values (buildAttesterStats now ts inits fins)) =
  encounterOrder (map w_args_attester inits ++ map w_args_attester fins).
Proof.
  rewrite attesterStats_values, map_map. simpl. apply map_id.
Qed.

Lemma attesterStats_NoDup (now : Z) (ts : jsobj Z Z) (inits fins : list WithdrawLog) :
  NoDup (map ae_address (Object_values (buildAttesterStats now ts inits fins))).
Proof.
  rewrite attesterStats_addresses.
  apply fold_SetAdd_NoDup; [exact String.eqb_spec | constructor].
Qed.

(** Every record the aggregator builds has its lists as long as its
    counters, and counters that are not negative. *)
Lemma attesterStats_counts (now : Z) (ts : jsobj Z Z) (inits fins : list WithdrawLog) :
  Forall (fun a => len (initiated a) = initiatedCount a /\
                   len (finalized a) = finalizedCount a /\
                   0 <= finalizedCount a)
    (Object_values (buildAttesterStats now ts inits fins)).
Proof.
  rewrite attesterStats_values. apply Forall_forall. intros a Ha.
  apply in_map_iff in Ha. destruct Ha as (k & <- & _). simpl.
  unfold len. rewrite !length_map. repeat split. lia.
Qed.

Lemma sumZ_perm (l l' : list Z) : Permutation l l' -> sumZ l = sumZ l'.
Proof.
  induction 1 as [| x l l' _ IH | x y l | l l' l'' _ IH1 _ IH2]; simpl; lia.
Qed.

Lemma len_filter_split {A : Type} (g : A -> bool) (l : list A) :
  len (filter g l) + len (filter (fun x => negb (g x)) l) = len l.
Proof.
  assert (H : (length (filter g l) + length (filter (fun x => negb (g x)) l) =
               length l)%nat).
  { induction l as [| x l IH]; simpl; [reflexivity |].
    destruct (g x); simpl; lia. }
  unfold len. lia.
Qed.

Lemma len_perm {A : Type} (l l' : list A) : Permutation l l' -> len l = len l'.
Proof. intros H. unfold len. now rewrite (Permutation_length H). Qed.

Lemma len_pendingOfAttesters (l : list AttesterExit) :
  len (pendingOfAttesters l) = sumZ (map (fun a => len (unfinalizedOf a)) l).
Proof.
  induction l as [| a l IH]; [reflexivity |].
  rewrite pendingOfAttesters_cons, len_app, IH. simpl.
  unfold len at 1. now rewrite length_map.
Qed.

Lemma len_unfinalizedOf (a : AttesterExit) :
  len (initiated a) = initiatedCount a -> 0 <= finalizedCount a ->
  len (unfinalizedOf a) = Z.max 0 (initiatedCount a - finalizedCount a).
Proof.
  intros Hlen Hfin. rewrite unfinalizedOf_lastn by assumption.
  unfold len in *. rewrite lastn_length. lia.
Qed.

(** ** C1 *)

(** C1: for every attester record of the exit snapshot, the pending exits
    attributed to its address are the last max(0, initiatedCount -
    finalizedCount) entries of its initiated list: the summary loop collects
    exactly these entries, in append order, under the attester's address;
    the snapshot lists them again (after the sort by exitableAt, as a
    rearrangement); and their number is max(0, initiatedCount -
    finalizedCount). *)
Theorem pending_exits_tail (dateNow : Z) (ts : jsobj Z Z) (scan : ExitScan)
  (fromBlock toBlock : Z) :
  let out := exitOutput dateNow ts scan fromBlock toBlock in
  let stats := buildAttesterStats (dateNow / 1000) ts
                 (initiatedEvents scan) (finalizedEvents scan) in
  Forall (fun r : AttesterExitRecord =>
            let tail := lastn (Z.to_nat (Z.max 0 (aer_initiatedCount r - aer_finalizedCount r)))
                          (aer_initiated r) in
            pendingOf (aer_address r) (pendingExits (summarize stats)) =
              map (mkPendingExit (aer_address r)) tail /\
            Permutation (pendingOf (aer_address r) (eo_pendingExits out))
              (map (mkPendingExit (aer_address r)) tail) /\
            len (pendingOf (aer_address r) (eo_pendingExits out)) =
              Z.max 0 (aer_initiatedCount r - aer_finalizedCount r))
    (eo_attesters out).
Proof.
  intros out stats. unfold out, exitOutput. simpl. fold stats.
  unfold sortedExitAttesters. apply sort_Forall. apply Forall_map.
  rewrite summarize_totals. simpl.
  pose proof (attesterStats_counts (dateNow / 1000) ts
                (initiatedEvents scan) (finalizedEvents scan)) as Hcounts.
  pose proof (attesterStats_NoDup (dateNow / 1000) ts
                (initiatedEvents scan) (finalizedEvents scan)) as Hnd.
  fold stats in Hcounts, Hnd.
  rewrite Forall_forall in *. intros a Ha. simpl.
  destruct (Hcounts a Ha) as (Hi & _ & Hf).
  assert (Hloop : pendingOf (ae_address a) (pendingOfAttesters (Object_values stats)) =
                  map (mkPendingExit (ae_address a))
                    (lastn (Z.to_nat (Z.max 0 (initiatedCount a - finalizedCount a)))
                       (initiated a))).
  { rewrite pendingOf_attester by assumption. now rewrite unfinalizedOf_lastn. }
  assert (Hperm : Permutation
                    (pendingOf (ae_address a)
                       (sort byExitableAt (pendingOfAttesters (Object_values stats))))
                    (pendingOf (ae_address a) (pendingOfAttesters (Object_values stats)))).
  { apply Permutation_filter, sort_perm. }
  split; [exact Hloop |]. split.
  - now rewrite Hperm, Hloop.
  - rewrite (len_perm _ _ Hperm), Hloop. unfold len in *.
    rewrite length_map, lastn_length. lia.
Qed.

(** ** C4 *)

(** C4, as amended: in the exit summary totalPending is the sum over all
    attesters of max(0, initiatedCount - finalizedCount), an attester with
    more finalized than initiated withdrawals counting for nothing;
    pendingCanFinalize and pendingCannotFinalize count the pending exits
    whose canFinalize flag is set and cleared, and add up to totalPending;
    for every stream of initiated and finalized events. *)
Theorem exit_summary_totals (dateNow : Z) (ts : jsobj Z Z) (scan : ExitScan)
  (fromBlock toBlock : Z) :
  let out := exitOutput dateNow ts scan fromBlock toBlock in
  eo_totalPending out =
    sumZ (map (fun r => Z.max 0 (aer_initiatedCount r - aer_finalizedCount r))
            (eo_attesters out)) /\
  eo_pendingCanFinalize out =
    len (filter (fun p => canFinalize (exit p)) (eo_pendingExits out)) /\
  eo_pendingCannotFinalize out =
    len (filter (fun p => negb (canFinalize (exit p))) (eo_pendingExits out)) /\
  eo_pendingCanFinalize out + eo_pendingCannotFinalize out = eo_totalPending out.
Proof.
  intros out. unfold out, exitOutput. simpl.
  set (stats := buildAttesterStats (dateNow / 1000) ts
                  (initiatedEvents scan) (finalizedEvents scan)).
  rewrite summarize_totals. simpl.
  set (pend := pendingOfAttesters (Object_values stats)).
  assert (Hc : forall g : PendingExit -> bool,
             len (filter g (sort byExitableAt pend)) = len (filter g pend)).
  { intros g. apply len_perm, Permutation_filter, sort_perm. }
  rewrite !Hc, sort_length.
  split; [| split; [reflexivity | split; [reflexivity | apply len_filter_split]]].
  unfold sortedExitAttesters.
  rewrite (sumZ_perm _ _ (Permutation_map _ (sort_perm _ _))).
  unfold pend. rewrite len_pendingOfAttesters, map_map. simpl.
  f_equal. apply map_ext_in. intros a Ha.
  pose proof (attesterStats_counts (dateNow / 1000) ts
                (initiatedEvents scan) (finalizedEvents scan)) as Hcounts.
  fold stats in Hcounts. rewrite Forall_forall in Hcounts.
  destruct (Hcounts a Ha) as (Hi & _ & Hf).
  now apply len_unfinalizedOf.
Qed.

(** ** The timestamp loop *)

Lemma Promise_all_Resolved {A : Type} (ps : list (outcome A)) (vs : list A) :
  Promise_all ps = Resolved vs ->
  Forall (fun o => resolves o = true) ps /\ vs = valuesOf ps.
Proof.
  revert vs. induction ps as [| [v | m] ps IH]; simpl; intros vs H.
  - injection H as <-. split; [constructor | reflexivity].
  - destruct (Promise_all ps) as [vs' | m']; [| discriminate].
    injection H as <-. destruct (IH vs' eq_refl) as [Hall ->].
    split; [constructor; [reflexivity | exact Hall] | reflexivity].
  - discriminate.
Qed.

Lemma Promise_all_Rejected {A : Type} (ps : list (outcome A)) (m : string) :
  Promise_all ps = Rejected m -> Exists (fun o => o = Rejected m) ps.
Proof.
  induction ps as [| [v | m'] ps IH]; simpl; intros H.
  - discriminate.
  - destruct (Promise_all ps) as [vs' | m'']; [discriminate |].
    injection H as ->. right. now apply IH.
  - injection H as ->. now left.
Qed.

Lemma timestampLoop_step (getBlock : Z -> outcome Block) (uniqueBlocks : list Z)
  (i : Z) (st : Lookups) :
  timestampLoop getBlock uniqueBlocks i st =
  if i <? len uniqueBlocks
  then
    match Promise_all (map getBlock (slice uniqueBlocks i (Some (i + 10)))) with
    | Resolved blocks_ =>
        timestampLoop getBlock uniqueBlocks (i + 10)
          (mkLookups (recordBlocks (blockTimestamps st) blocks_)
             (batches st ++ [slice uniqueBlocks i (Some (i + 10))]))
    | Rejected message =>
        (Rejected message, batches st ++ [slice uniqueBlocks i (Some (i + 10))])
    end
  else (Resolved (blockTimestamps st), batches st).
Proof.
  rewrite timestampLoop_equation_1.
  destruct (Z_lt_ge_dec i (len uniqueBlocks)) as [Hlt | Hge]; simpl;
    destruct (Z.ltb_spec i (len uniqueBlocks)); try lia; [| reflexivity].
  destruct (Promise_all (map getBlock (slice uniqueBlocks i (Some (i + 10)))));
    reflexivity.
Qed.

(** Induction along the indices the loop visits. *)
Lemma batch_ind (n : Z) (P : Z -> Prop) :
  (forall i, (i < n -> P (i + 10)) -> P i) -> forall i, P i.
Proof.
  intros step i.
  remember (Z.to_nat (n - i)) as k eqn:Ek.
  revert i Ek. induction k as [k IH] using lt_wf_ind.
  intros i Ek. apply step. intros Hlt.
  apply (IH (Z.to_nat (n - (i + 10)))); [lia | reflexivity].
Qed.

(** Inside the array, [slice(i, i + 10)] is the next ten elements at most. *)
Lemma slice_batch {A : Type} (l : list A) (i : Z) :
  0 <= i < len l ->
  slice l i (Some (i + 10)) = firstn 10 (skipn (Z.to_nat i) l).
Proof.
  intros Hi. unfold slice, clampIndex.
  destruct (Z.ltb_spec i 0); [lia |].
  destruct (Z.ltb_spec (i + 10) 0); [lia |].
  rewrite (Z.min_l i) by lia.
  set (rest := skipn (Z.to_nat i) l).
  assert (Hrest : length rest = (length l - Z.to_nat i)%nat)
    by (unfold rest; apply length_skipn).
  unfold len in *.
  destruct (Z_le_gt_dec (i + 10) (Z.of_nat (length l))) as [Hfull | Hshort].
  - rewrite Z.min_l by lia. f_equal. lia.
  - rewrite Z.min_r by lia.
    rewrite !firstn_all2; [reflexivity | lia | lia].
Qed.

Lemma valuesOf_app {A : Type} (l l' : list (outcome A)) :
  valuesOf (l ++ l') = valuesOf l ++ valuesOf l'.
Proof. apply flat_map_app. Qed.

Lemma recordBlocks_app (ts : jsobj Z Z) (bs bs' : list Block) :
  recordBlocks ts (bs ++ bs') = recordBlocks (recordBlocks ts bs) bs'.
Proof. apply fold_left_app. Qed.

(** What the loop does from index [i] on: it issues batches that tile the
    rest of the array, ten block numbers each except perhaps the last one
    issued, goes on to the next batch only when every lookup of the batch
    resolved, and either resolves after recording the block of every lookup
    or rejects with the message of a lookup of the last batch issued. *)
Lemma timestampLoop_trace (getBlock : Z -> outcome Block) (uniqueBlocks : list Z)
  (i : Z) :
  0 <= i -> forall st,
  exists nb rest,
    snd (timestampLoop getBlock uniqueBlocks i st) = batches st ++ nb /\
    skipn (Z.to_nat i) uniqueBlocks = concat nb ++ rest /\
    Forall (fun b => (1 <= length b <= 10)%nat) nb /\
    allButLast (fun b => length b = 10%nat /\
                         Forall (fun bn => resolves (getBlock bn) = true) b) nb /\
    match fst (timestampLoop getBlock uniqueBlocks i st) with
    | Resolved ts =>
        rest = [] /\
        Forall (fun bn => resolves (getBlock bn) = true) (concat nb) /\
        ts = recordBlocks (blockTimestamps st) (valuesOf (map getBlock (concat nb)))
    | Rejected m =>
        exists pre lastb, nb = pre ++ [lastb] /\
                          Exists (fun bn => getBlock bn = Rejected m) lastb
    end.
Proof.
  pattern i. apply (batch_ind (len uniqueBlocks)). clear i.
  intros i IH Hi st. rewrite timestampLoop_step.
  destruct (Z.ltb_spec i (len uniqueBlocks)) as [Hlt | Hge].
  - rewrite slice_batch by lia.
    set (batch := firstn 10 (skipn (Z.to_nat i) uniqueBlocks)).
    assert (Hsplit : skipn (Z.to_nat i) uniqueBlocks =
                     batch ++ skipn (Z.to_nat (i + 10)) uniqueBlocks).
    { unfold batch.
      replace (Z.to_nat (i + 10)) with (10 + Z.to_nat i)%nat by lia.
      rewrite <- skipn_skipn. symmetry. apply firstn_skipn. }
    assert (Hblen : length batch = Nat.min 10 (length uniqueBlocks - Z.to_nat i)).
    { unfold batch. now rewrite length_firstn, length_skipn. }
    assert (Hb : (1 <= length batch <= 10)%nat) by (unfold len in *; lia).
    destruct (Promise_all (map getBlock batch)) as [bs | m] eqn:Eall.
    + destruct (IH Hlt ltac:(lia)
                  (mkLookups (recordBlocks (blockTimestamps st) bs)
                     (batches st ++ [batch])))
        as (nb & rest & Hsnd & Hskip & Hlens & Hprev & Hres).
      apply Promise_all_Resolved in Eall. destruct Eall as [Hall ->].
      exists (batch :: nb), rest. simpl in Hsnd.
      split; [rewrite Hsnd, <- app_assoc; reflexivity |].
      split; [simpl; rewrite <- app_assoc, <- Hskip; exact Hsplit |].
      split; [constructor; assumption |].
      assert (Hbatch : Forall (fun bn => resolves (getBlock bn) = true) batch).
      { apply Forall_map in Hall. exact Hall. }
      split.
      * simpl. destruct nb as [| b nb]; [exact I |].
        split; [| exact Hprev]. split; [| exact Hbatch].
        inversion Hlens as [| ? ? Hb1 _]; subst.
        assert (Hn : (1 <= length (skipn (Z.to_nat (i + 10)) uniqueBlocks))%nat).
        { rewrite Hskip. simpl. rewrite !length_app. lia. }
        rewrite length_skipn in Hn. lia.
      * destruct (fst (timestampLoop getBlock uniqueBlocks (i + 10) _)) as [ts | m].
        -- destruct Hres as (-> & Hok & ->). simpl.
           split; [reflexivity |]. split; [now apply Forall_app |].
           now rewrite map_app, valuesOf_app, recordBlocks_app.
        -- destruct Hres as (pre & lastb & -> & Hex).
           exists (batch :: pre), lastb. split; [reflexivity | exact Hex].
    + exists [batch], (skipn (Z.to_nat (i + 10)) uniqueBlocks). simpl.
      split; [reflexivity |].
      split; [now rewrite app_nil_r |].
      split; [constructor; [exact Hb | constructor] |].
      split; [exact I |].
      exists [], batch. split; [reflexivity |].
      apply Promise_all_Rejected in Eall. apply Exists_exists in Eall.
      destruct Eall as (o & Hin & ->). apply in_map_iff in Hin.
      destruct Hin as (bn & Hbn & Hin). apply Exists_exists. now exists bn.
  - exists [], []. simpl.
    split; [now rewrite app_nil_r |].
    split; [apply skipn_all2; unfold len in *; lia |].
    repeat split; constructor.
Qed.

(** ** Failed windows *)



Lemma consumed_ext {E : Type} (q q' : Z -> Z -> outcome (list E)) (ws : list (Z * Z)) :
  (forall s e, q s e = q' s e) -> consumed q ws = consumed q' ws.
Proof.
  intros H. unfold consumed. apply flat_map_ext. intros [s e]. simpl. now rewrite H.
Qed.

Lemma failures_ext {E : Type} (q q' : Z -> Z -> outcome (list E)) (ws : list (Z * Z)) :
  (forall s e, q s e = q' s e) -> failures q ws = failures q' ws.
Proof.
  intros H. unfold failures. apply flat_map_ext. intros [s e]. simpl. now rewrite H.
Qed.

Lemma exitWindow_both (qi qf : Z -> Z -> outcome (list WithdrawLog))
  (s e : Z) (st : ExitScan) :
  exitWindow qi qf s e st =
  match bothWithdraw qi qf s e with
  | Resolved (i, f) =>
      mkExitScan (initiatedEvents st ++ i) (finalizedEvents st ++ f) (es_stderr st)
  | Rejected m =>
      mkExitScan (initiatedEvents st) (finalizedEvents st)
        (es_stderr st ++ [ErrorQuerying s e m])
  end.
Proof.
  unfold exitWindow, bothWithdraw. simpl.
  destruct (qi s e) as [i | m]; [| reflexivity].
  destruct (qf s e) as [f | m]; reflexivity.
Qed.

Lemma fold_exitWindow (qi qf : Z -> Z -> outcome (list WithdrawLog))
  (ws : list (Z * Z)) (st : ExitScan) :
  fold_left (fun st w => exitWindow qi qf (fst w) (snd w) st) ws st =
  mkExitScan (initiatedEvents st ++ consumed (settledInitiated qi qf) ws)
    (finalizedEvents st ++ consumed (settledFinalized qi qf) ws)
    (es_stderr st ++ failures (settledInitiated qi qf) ws).
Proof.
  revert st. induction ws as [| [s e] ws IH]; intros st; simpl.
  - destruct st. simpl. now rewrite !app_nil_r.
  - rewrite IH, exitWindow_both. unfold settledInitiated, settledFinalized.
    destruct (bothWithdraw qi qf s e) as [[i f] | m]; simpl;
      now rewrite <- ?app_assoc.
Qed.

Lemma scanExits_consumed (qi qf : Z -> Z -> outcome (list WithdrawLog))
  (fromBlock toBlock : Z) :
  scanExits qi qf fromBlock toBlock =
  mkExitScan (consumed (settledInitiated qi qf) (windows fromBlock toBlock))
    (consumed (settledFinalized qi qf) (windows fromBlock toBlock))
    (failures (settledInitiated qi qf) (windows fromBlock toBlock)).
Proof.
  unfold scanExits. rewrite chunkLoop_fold, fold_exitWindow. reflexivity.
Qed.




(** ** C7 *)


(** ** C8 *)

Lemma spreadSet_NoDup_Z (xs : list Z) : NoDup (spreadSet Z.eqb xs).
Proof. apply fold_SetAdd_NoDup; [exact Z.eqb_spec | constructor]. Qed.

Lemma spreadSet_In_Z (xs : list Z) (x : Z) : In x (spreadSet Z.eqb xs) <-> In x xs.
Proof.
  unfold spreadSet. rewrite (fold_SetAdd_In Z.eqb Z.eqb_spec). simpl. tauto.
Qed.


(** ** C2 *)

Lemma In_firstn {A : Type} (x : A) (n : nat) (l : list A) :
  In x (firstn n l) -> In x l.
Proof.
  intros H. rewrite <- (firstn_skipn n l). apply in_or_app. now left.
Qed.

Lemma In_skipn {A : Type} (x : A) (n : nat) (l : list A) :
  In x (skipn n l) -> In x l.
Proof.
  intros H. rewrite <- (firstn_skipn n l). apply in_or_app. now right.
Qed.

Lemma unfinalizedOf_In (a : AttesterExit) (d : InitiatedDetail) :
  In d (unfinalizedOf a) -> In d (initiated a).
Proof.
  unfold unfinalizedOf, slice.
  destruct (0 <? initiatedCount a - finalizedCount a); [| intros []].
  intros H. apply In_firstn in H. now apply In_skipn in H.
Qed.

(** The last block recorded under a number is the one a lookup finds. *)
Lemma recordBlocks_get (bs : list Block) (ts : jsobj Z Z) (k T : Z) :
  (forall b, In b bs -> block_number b = k -> block_timestamp b = T) ->
  get Z.eqb ts k = Some T \/ (exists b, In b bs /\ block_number b = k) ->
  get Z.eqb (recordBlocks ts bs) k = Some T.
Proof.
  revert ts. induction bs as [| b bs IH]; intros ts Hsame Hsome.
  - destruct Hsome as [H | (b & [] & _)]. exact H.
  - change (recordBlocks ts (b :: bs))
      with (recordBlocks (set Z.eqb ts (block_number b) (block_timestamp b)) bs).
    apply IH; [intros b' Hb'; apply Hsame; now right |].
    destruct (Z.eq_dec k (block_number b)) as [-> | Hne].
    + left. rewrite (get_set_same Z.eqb Z.eqb_spec).
      f_equal. apply Hsame; [now left | reflexivity].
    + rewrite (get_set_other Z.eqb Z.eqb_spec) by exact Hne.
      destruct Hsome as [H | (b' & [<- | Hin] & Hk)];
        [now left | congruence | right; now exists b'].
Qed.

Lemma valuesOf_map_In {A B : Type} (g : A -> outcome B) (l : list A) (v : B) :
  In v (valuesOf (map g l)) <-> exists x, In x l /\ g x = Resolved v.
Proof.
  unfold valuesOf. rewrite in_flat_map. split.
  - intros (o & Ho & Hv). apply in_map_iff in Ho. destruct Ho as (x & <- & Hx).
    exists x. split; [exact Hx |].
    destruct (g x); simpl in Hv; [destruct Hv as [-> | []]; reflexivity | destruct Hv].
  - intros (x & Hx & Hg). exists (g x). split; [now apply in_map |].
    rewrite Hg. now left.
Qed.

(** With a provider that answers a lookup of [bn] with the block numbered
    [bn], the resolved map holds the timestamp of every block looked up. *)
Lemma resolveTimestamps_get (getBlock_ : Z -> outcome Block) (events : list WithdrawLog)
  (ts : jsobj Z Z) (e : WithdrawLog) (T : Z) :
  fst (resolveTimestamps getBlock_ events) = Resolved ts ->
  (forall bn b, getBlock_ bn = Resolved b -> block_number b = bn) ->
  In e events ->
  getBlock_ (w_blockNumber e) = Resolved (mkBlock (w_blockNumber e) T) ->
  get Z.eqb ts (w_blockNumber e) = Some T.
Proof.
  intros Hres Hfaith Hin Hblk. unfold resolveTimestamps in Hres.
  set (U := spreadSet Z.eqb (map w_blockNumber events)) in *.
  destruct (timestampLoop_trace getBlock_ U 0 (Z.le_refl 0) (mkLookups [] []))
    as (nb & rest & _ & Hskip & _ & _ & Hts).
  rewrite Hres in Hts. destruct Hts as (-> & _ & ->).
  simpl in Hskip. rewrite app_nil_r in Hskip. rewrite <- Hskip. simpl.
  apply recordBlocks_get.
  - intros b Hb Hk. apply valuesOf_map_In in Hb. destruct Hb as (bn & _ & Hg).
    pose proof (Hfaith bn b Hg) as Hn.
    assert (Hbn : bn = w_blockNumber e) by congruence.
    rewrite Hbn, Hblk in Hg. injection Hg as <-. reflexivity.
  - right. exists (mkBlock (w_blockNumber e) T). split; [| reflexivity].
    apply valuesOf_map_In. exists (w_blockNumber e). split; [| exact Hblk].
    apply spreadSet_In_Z. now apply in_map.
Qed.

Lemma initiatedDetailOf_maturation (now : Z) (ts : jsobj Z Z) (e : WithdrawLog) (T : Z) :
  timestamp (initiatedDetailOf now ts e) = Some T ->
  exitableAt (initiatedDetailOf now ts e) = Some (T + 1209600) /\
  canFinalize (initiatedDetailOf now ts e) = (T + 1209600 <=? now).
Proof.
  unfold initiatedDetailOf. simpl. intros ->. simpl. split; reflexivity.
Qed.

Lemma eo_attesters_In (dateNow : Z) (ts : jsobj Z Z) (scan : ExitScan)
  (fromBlock toBlock : Z) (r : AttesterExitRecord) :
  In r (eo_attesters (exitOutput dateNow ts scan fromBlock toBlock)) <->
  exists k, In k (map w_args_attester (initiatedEvents scan) ++
                  map w_args_attester (finalizedEvents scan)) /\
            r = exitRecord (attesterExitOf (dateNow / 1000) ts
                              (initiatedEvents scan) (finalizedEvents scan) k).
Proof.
  unfold exitOutput. simpl. unfold sortedExitAttesters.
  rewrite sort_In, attesterStats_values, map_map, in_map_iff.
  split; intros (k & H1 & H2).
  - exists k. split; [now apply encounterOrder_In | now symmetry].
  - exists k. split; [now symmetry | now apply encounterOrder_In].
Qed.

(** C2: in an exit run that wrote its snapshot, with a provider that
    answers a lookup with the block asked for: an initiated event whose
    block has timestamp T is listed under its attester with that timestamp,
    exitableAt = T + 1209600 and canFinalize = (now >= T + 1209600), where
    now is the one reading of the clock, in seconds, stored as
    currentTimestamp; and every initiated entry and pending exit of the
    snapshot that carries a timestamp T' has exitableAt = T' + 1209600 and
    canFinalize = (now >= T' + 1209600). *)
Theorem exit_maturation (qi qf : Z -> Z -> outcome (list WithdrawLog))
  (getBlock_ : Z -> outcome Block) (dateNow fromBlock toBlock : Z)
  (out : ExitOutput) (e : WithdrawLog) (T : Z) :
  er_result (indexExitEvents qi qf getBlock_ dateNow fromBlock toBlock) = Resolved out ->
  (forall bn b, getBlock_ bn = Resolved b -> block_number b = bn) ->
  In e (initiatedEvents (scanExits qi qf fromBlock toBlock)) ->
  getBlock_ (w_blockNumber e) = Resolved (mkBlock (w_blockNumber e) T) ->
  let now := eo_currentTimestamp out in
  EXIT_DELAY_SECONDS = 1209600 /\
  now = dateNow / 1000 /\
  (exists r, In r (eo_attesters out) /\
             aer_address r = w_args_attester e /\
             In (mkInitiatedDetail (w_args_recipient e) (toString (w_args_amount e))
                   (w_transactionHash e) (w_blockNumber e)
                   (Some T) (Some (T + 1209600)) (T + 1209600 <=? now))
                (aer_initiated r)) /\
  (forall r d T', In r (eo_attesters out) -> In d (aer_initiated r) ->
                  timestamp d = Some T' ->
                  exitableAt d = Some (T' + 1209600) /\
                  canFinalize d = (T' + 1209600 <=? now)) /\
  (forall p T', In p (eo_pendingExits out) -> timestamp (exit p) = Some T' ->
                exitableAt (exit p) = Some (T' + 1209600) /\
                canFinalize (exit p) = (T' + 1209600 <=? now)).
Proof.
  intros Hrun Hfaith Hin Hblk now.
  unfold indexExitEvents in Hrun.
  set (scan := scanExits qi qf fromBlock toBlock) in *.
  pose proof (resolveTimestamps_get getBlock_ (initiatedEvents scan)) as Hget.
  destruct (resolveTimestamps getBlock_ (initiatedEvents scan)) as [[ts | m] issued];
    simpl in Hrun; [| discriminate].
  injection Hrun as <-.
  specialize (Hget ts e T eq_refl Hfaith Hin Hblk).
  unfold now. change (eo_currentTimestamp _) with (dateNow / 1000).
  split; [reflexivity |]. split; [reflexivity |].
  assert (Hdetail : forall a d T',
             In a (Object_values (buildAttesterStats (dateNow / 1000) ts
                                    (initiatedEvents scan) (finalizedEvents scan))) ->
             In d (initiated a) -> timestamp d = Some T' ->
             exitableAt d = Some (T' + 1209600) /\
             canFinalize d = (T' + 1209600 <=? dateNow / 1000)).
  { intros a d T' Ha Hd Ht. rewrite attesterStats_values in Ha.
    apply in_map_iff in Ha. destruct Ha as (k & <- & _). simpl in Hd.
    apply in_map_iff in Hd. destruct Hd as (e' & <- & _).
    now apply initiatedDetailOf_maturation. }
  split; [| split].
  - exists (exitRecord (attesterExitOf (dateNow / 1000) ts (initiatedEvents scan)
                        (finalizedEvents scan) (w_args_attester e))).
    split; [| split; [reflexivity |]].
    + apply eo_attesters_In. exists (w_args_attester e).
      split; [| reflexivity]. apply in_or_app. left. now apply in_map.
    + simpl. apply in_map_iff. exists e. split.
      * unfold initiatedDetailOf. rewrite Hget. reflexivity.
      * unfold withdrawalsOf, eventsOf. apply filter_In.
        split; [exact Hin | apply String.eqb_refl].
  - intros r d T' Hr Hd Ht. apply eo_attesters_In in Hr.
    destruct Hr as (k & Hk & ->). simpl in Hd.
    apply in_map_iff in Hd. destruct Hd as (e' & <- & _).
    now apply initiatedDetailOf_maturation.
  - intros p T' Hp Ht. unfold exitOutput in Hp. simpl in Hp.
    apply sort_In in Hp. rewrite summarize_totals in Hp. simpl in Hp.
    unfold pendingOfAttesters in Hp. apply in_flat_map in Hp.
    destruct Hp as (a & Ha & Hp). apply in_map_iff in Hp.
    destruct Hp as (d & <- & Hd). simpl in *.
    apply unfinalizedOf_In in Hd. now apply (Hdetail a).
Qed.

(** ** C10 *)

(** C10: in every snapshot the detail lists are as long as the counters
    say: a prover's blocks list has proofCount entries, a slashed attester's
    slashes list has slashCount entries, and an exiting attester's initiated
    and finalized lists have initiatedCount and finalizedCount entries,
    whatever events the scan consumed. *)
Theorem detail_lengths_match_counters
  (queryProofs : Z -> Z -> outcome (list ProofVerifiedLog))
  (querySlashes : Z -> Z -> outcome (list SlashedLog))
  (dateNow : Z) (ts : jsobj Z Z) (scan : ExitScan) (fromBlock toBlock : Z) :
  Forall (fun r => len (blocks r) = proofCount r)
    (provers (snd (indexProofEvents queryProofs fromBlock toBlock))) /\
  Forall (fun r => len (asr_slashes r) = asr_slashCount r)
    (so_attesters (snd (indexSlashEvents querySlashes fromBlock toBlock))) /\
  Forall (fun r => len (aer_initiated r) = aer_initiatedCount r /\
                   len (aer_finalized r) = aer_finalizedCount r)
    (eo_attesters (exitOutput dateNow ts scan fromBlock toBlock)).
Proof.
  split; [| split].
  - unfold indexProofEvents. simpl. rewrite scanProofs_consumed. simpl.
    unfold sortedProvers. apply sort_Forall. rewrite proverStats_values.
    apply Forall_map, Forall_forall. intros k _. simpl.
    unfold len. now rewrite length_map.
  - unfold indexSlashEvents. simpl. rewrite scanSlashes_consumed. simpl.
    unfold sortedSlashAttesters. apply sort_Forall. rewrite slashStats_values.
    apply Forall_map, Forall_map, Forall_forall. intros k _. simpl.
    unfold len. now rewrite length_map.
  - apply Forall_forall. intros r Hr. apply eo_attesters_In in Hr.
    destruct Hr as (k & _ & ->). simpl. unfold len. now rewrite !length_map.
Qed.

(** ** Sample runs *)

(** The spec's scenario A: one proof in the range [100, 100]. *)
Example scenario_one_proof :
  snd (indexProofEvents
         (logsIn pv_blockNumber [mkProofVerifiedLog 5 addr1 (sampleTx 1) 100]) 100 100) =
  mkProofOutput (100, 100) 1 1
    [mkProverRecord addr1 1 [mkProofBlock "5" (sampleTx 1) 100]].
Proof. reflexivity. Qed.

(** The spec's scenario B with one amount above 2^128: the total is exact. *)
Example scenario_two_slashes :
  let data := snd (indexSlashEvents (querySlashed slashChain) 100 200) in
  so_totalSlashes data = 2 /\
  so_uniqueAttesters data = 1 /\
  so_totalAmountSlashed data = "340282366920938463463374607431768211477"%string.
Proof. vm_compute. repeat split. Qed.

(** The spec's scenario C: the flag flips exactly at the maturation time. *)
Example scenario_maturation_boundary :
  let scan := mkExitScan [mkWithdrawLog addr1 addr3 500 (sampleTx 1) 100] [] [] in
  let atTime := exitOutput ((1000000 + 1209600) * 1000) [(100, 1000000)] scan 100 100 in
  let before := exitOutput ((1000000 + 1209600) * 1000 - 1) [(100, 1000000)] scan 100 100 in
  (eo_pendingCanFinalize atTime, eo_pendingCannotFinalize atTime) = (1, 0) /\
  (eo_pendingCanFinalize before, eo_pendingCannotFinalize before) = (0, 1).
Proof. vm_compute. split; reflexivity. Qed.

(** C4 as stated fails: with one attester that initiated a withdrawal and
    another whose only event is a finalization, the snapshot reports one
    pending exit while the pending counts 1 and -1 add up to 0. *)
Lemma totalPending_sum_counterexample :
  match written (main (sampleEnv "exit" 100) overFinalizedChain 1700000000000) with
  | Some (ExitStats out) =>
      eo_totalPending out = 1 /\
      sumZ (map (fun r => aer_initiatedCount r - aer_finalizedCount r)
              (eo_attesters out)) = 0 /\
      eo_totalPending out <>
      sumZ (map (fun r => aer_initiatedCount r - aer_finalizedCount r) (eo_attesters out))
  | _ => False
  end.
Proof. vm_compute. repeat split. discriminate. Qed.

Lemma exit_maturation_witness :
  let e := mkWithdrawLog addr1 addr3 500 (sampleTx 1) 100 in
  let out := exitOutput 1700000000000 [(100, 1000000)] (mkExitScan [e] [] []) 100 101 in
  er_result (indexExitEvents (queryWithdrawInitiated overFinalizedChain) noLogs
               (getBlock overFinalizedChain) 1700000000000 100 101) = Resolved out /\
  exists r, In r (eo_attesters out) /\
            aer_address r = addr1 /\
            In (mkInitiatedDetail addr3 "500" (sampleTx 1) 100
                  (Some 1000000) (Some 2209600) true) (aer_initiated r).
Proof.
  intros e out. split; [reflexivity |].
  refine (proj1 (proj2 (proj2
    (exit_maturation (queryWithdrawInitiated overFinalizedChain) noLogs
       (getBlock overFinalizedChain) 1700000000000 100 101 out e 1000000
       eq_refl _ _ eq_refl)))).
  - intros bn b H. injection H as <-. reflexivity.
  - simpl. left. reflexivity.
Defined.



Lemma provers_sorted_stable_witness :
  let out := provers (snd (indexProofEvents (queryL2ProofVerified proofChain) 100 25003)) in
  map pr_address out = [addr2; addr1; addr3] /\
  map proofCount out = [2; 2; 1] /\
  (firstSeen addr2 [addr2; addr1; addr1; addr2; addr3] <
   firstSeen addr1 [addr2; addr1; addr1; addr2; addr3])%nat.
Proof.
  intros out. split; [reflexivity |]. split; [reflexivity |].
  destruct (provers_sorted_stable (queryL2ProofVerified proofChain) 100 25003)
    as (_ & _ & Hstable).
  refine (proj1 (Hstable (mkProverRecord addr2 2 _) (mkProverRecord addr1 2 _)
                   _ _ eq_refl) _).
  - vm_compute. left. reflexivity.
  - vm_compute. right. left. reflexivity.
  - vm_compute. left. split; [reflexivity |]. left. reflexivity.
Defined.

(** * Further properties of the indexer *)

(** ** How a run ends *)



(** X2: when a required variable is not set, or the provider cannot give
    the current block, the run exits with code 1 after a single error
    line, looks up no block and writes nothing; the log queries and block
    lookups of the chain and the clock play no part in it. *)
Theorem main_fatal_before_scan (env : Env) (chain : Chain) (dateNow : Z) :
  notSet (SEPOLIA_RPC_URL env) = true \/
  notSet (ROLLUP_CONTRACT_ADDRESS env) = true \/
  resolves (getBlockNumber chain) = false ->
  let p := main env chain dateNow in
  exitCode p = 1 /\ written p = None /\ getBlockBatches p = [] /\
  (exists line, stderr p = [line] /\ forall s e m, line <> ErrorQuerying s e m) /\
  (notSet (SEPOLIA_RPC_URL env) = true -> stderr p = [ErrorNotSet "SEPOLIA_RPC_URL"]) /\
  forall chain' dateNow',
    getBlockNumber chain' = getBlockNumber chain ->
    main env chain' dateNow' = p.
Proof.
  intros H. unfold main.
  destruct (notSet (SEPOLIA_RPC_URL env)).
  { simpl. repeat split; try reflexivity.
    eexists. split; [reflexivity | discriminate]. }
  destruct (notSet (ROLLUP_CONTRACT_ADDRESS env)).
  { simpl. repeat split; try reflexivity; try discriminate.
    eexists. split; [reflexivity | discriminate]. }
  destruct H as [H | [H | H]]; try discriminate.
  destruct (getBlockNumber chain) as [b | m] eqn:Eb; [discriminate |].
  simpl. repeat split; try reflexivity; try discriminate.
  - eexists. split; [reflexivity | discriminate].
  - intros chain' dateNow' ->. reflexivity.
Qed.

Lemma main_fatal_before_scan_witness :
  let env := mkEnv None (Some addr3) (Some 100) None (Some "exit"%string) in
  main env lostBlockChain 1700000000000 =
  mkProcess 1 [ErrorNotSet "SEPOLIA_RPC_URL"] [] None /\
  main env slashChain 5 = main env lostBlockChain 1700000000000.
Proof.
  intros env. split; [reflexivity |].
  refine (proj2 (proj2 (proj2 (proj2 (proj2
    (main_fatal_before_scan env lostBlockChain 1700000000000 (or_introl eq_refl))))))
    slashChain 5 _).
  reflexivity.
Defined.



(** ** How many windows *)

(** X4: a range of safe integers that holds at least one block, with
    0 <= fromBlock <= toBlock <= 2^53 - 1, is scanned in
    (toBlock - fromBlock) / 10000 + 1 windows, the quotient rounded down. *)
Theorem windows_count (fromBlock toBlock : Z) :
  0 <= fromBlock -> fromBlock <= toBlock -> toBlock <= MAX_SAFE_INTEGER ->
  len (windows fromBlock toBlock) = (toBlock - fromBlock) / 10000 + 1.
Proof.
  intros _ Hfrom _. revert Hfrom.
  pattern fromBlock. apply (chunk_ind toBlock). clear fromBlock.
  intros start IH Hle. rewrite windows_unfold.
  destruct (Z.leb_spec start toBlock) as [_ | Hgt]; [| lia].
  rewrite len_cons.
  destruct (Z_le_gt_dec (start + CHUNK_SIZE) toBlock) as [Hnext | Hlast].
  - rewrite (IH Hle Hnext). unfold CHUNK_SIZE in *.
    replace (toBlock - start) with (toBlock - (start + 10000) + 1 * 10000) by lia.
    rewrite Z.div_add by lia. lia.
  - rewrite windows_unfold.
    destruct (Z.leb_spec (start + CHUNK_SIZE) toBlock) as [Hc | _]; [lia |].
    unfold CHUNK_SIZE in *. rewrite Z.div_small by lia. reflexivity.
Qed.

Lemma windows_count_witness : len (windows 5 25003) = 3.
Proof.
  exact (windows_count 5 25003 ltac:(lia) ltac:(lia)
           ltac:(unfold MAX_SAFE_INTEGER; lia)).
Defined.

(** X5: a range whose end lies before its start is not scanned at all: no
    window is queried and no block is looked up, nothing is reported, and
    each of the three scans still completes with an empty result. *)
Theorem empty_range_scans_nothing (fromBlock toBlock : Z) :
  toBlock < fromBlock ->
  windows fromBlock toBlock = [] /\
  (forall q, indexProofEvents q fromBlock toBlock =
             ([], mkProofOutput (fromBlock, toBlock) 0 0 [])) /\
  (forall q, indexSlashEvents q fromBlock toBlock =
             ([], mkSlashOutput (fromBlock, toBlock) 0 "0" 0 [])) /\
  (forall qi qf getBlock_ dateNow,
     indexExitEvents qi qf getBlock_ dateNow fromBlock toBlock =
     mkExitRun [] []
       (Resolved (mkExitOutput (dateNow / 1000) (fromBlock, toBlock) 0 0 0 0 0 0 [] []))).
Proof.
  intros Hlt.
  assert (Hw : windows fromBlock toBlock = []).
  { rewrite windows_unfold. destruct (Z.leb_spec fromBlock toBlock); [lia | reflexivity]. }
  split; [exact Hw |]. split; [| split].
  - intros q. unfold indexProofEvents. rewrite scanProofs_consumed, Hw. reflexivity.
  - intros q. unfold indexSlashEvents. rewrite scanSlashes_consumed, Hw. reflexivity.
  - intros qi qf getBlock_ dateNow. unfold indexExitEvents.
    rewrite scanExits_consumed, Hw. reflexivity.
Qed.

Lemma empty_range_scans_nothing_witness :
  indexProofEvents (queryL2ProofVerified proofChain) 200 100 =
  ([], mkProofOutput (200, 100) 0 0 []).
Proof.
  exact (proj1 (proj2 (empty_range_scans_nothing 200 100 ltac:(lia)))
           (queryL2ProofVerified proofChain)).
Defined.

(** ** Records against the stream *)

Lemma sumZ_map_add {A : Type} (f g : A -> Z) (l : list A) :
  sumZ (map (fun x => f x + g x) l) = sumZ (map f l) + sumZ (map g l).
Proof. induction l as [| x l IH]; simpl; [reflexivity | rewrite IH; lia]. Qed.

Lemma sumZ_indicator (x : string) (c : Z) (ks : list string) :
  NoDup ks -> In x ks ->
  sumZ (map (fun k => if String.eqb x k then c else 0) ks) = c.
Proof.
  induction ks as [| k ks IH]; simpl; intros Hnd Hin; [destruct Hin |].
  inversion Hnd as [| ? ? Hnotin Hnd']; subst.
  destruct (String.eqb_spec x k) as [-> | Hne].
  - assert (Hz : sumZ (map (fun k0 => if String.eqb k k0 then c else 0) ks) = 0).
    { clear IH Hnd Hnd' Hin. induction ks as [| k' ks IH]; simpl; [reflexivity |].
      destruct (String.eqb_spec k k') as [-> | _]; [simpl in Hnotin; tauto |].
      rewrite IH; [reflexivity | simpl in Hnotin; tauto]. }
    rewrite Hz. lia.
  - destruct Hin as [-> | Hin]; [congruence |]. rewrite IH by assumption. lia.
Qed.

(** Summing a weight over the events of every key, one key after the
    other, sums it over the whole stream. *)
Lemma sumZ_by_key {E : Type} (key : E -> string) (w : E -> Z)
  (ks : list string) (evs : list E) :
  NoDup ks -> (forall e, In e evs -> In (key e) ks) ->
  sumZ (map (fun k => sumZ (map w (eventsOf String.eqb key k evs))) ks) =
  sumZ (map w evs).
Proof.
  intros Hnd. induction evs as [| e evs IH]; intros Hin; simpl.
  - induction ks as [| k ks IHk]; simpl; [reflexivity |].
    inversion Hnd; subst. now rewrite IHk.
  - rewrite <- IH by (intros e' He'; apply Hin; now right).
    rewrite <- (sumZ_indicator (key e) (w e) ks Hnd (Hin e (or_introl eq_refl))).
    rewrite <- sumZ_map_add. f_equal. apply map_ext. intros k.
    unfold eventsOf. simpl. destruct (String.eqb (key e) k); simpl; lia.
Qed.

Lemma len_as_sum {A : Type} (l : list A) : len l = sumZ (map (fun _ => 1) l).
Proof.
  induction l as [| x l IH]; [reflexivity |].
  rewrite len_cons, IH.
  change (sumZ (map (fun _ => 1) (x :: l))) with (1 + sumZ (map (fun _ : A => 1) l)).
  lia.
Qed.

Lemma len_by_key {E : Type} (key : E -> string) (evs : list E) :
  sumZ (map (fun k => len (eventsOf String.eqb key k evs))
          (encounterOrder (map key evs))) = len evs.
Proof.
  rewrite (len_as_sum evs).
  rewrite <- (sumZ_by_key key (fun _ => 1) (encounterOrder (map key evs)) evs).
  - f_equal. apply map_ext. intros k. apply len_as_sum.
  - apply fold_SetAdd_NoDup; [exact String.eqb_spec | constructor].
  - intros e He. apply encounterOrder_In. now apply in_map.
Qed.

(** X6: the proof counts of the provers of a snapshot add up to
    totalProofs. *)
Theorem proof_counts_add_up (queryFilter : Z -> Z -> outcome (list ProofVerifiedLog))
  (fromBlock toBlock : Z) :
  let data := snd (indexProofEvents queryFilter fromBlock toBlock) in
  sumZ (map proofCount (provers data)) = po_totalProofs data.
Proof.
  intros data. unfold data, indexProofEvents. simpl.
  rewrite scanProofs_consumed. simpl.
  unfold sortedProvers.
  rewrite (sumZ_perm _ _ (Permutation_map proofCount (sort_perm _ _))).
  rewrite proverStats_values, map_map. simpl. apply len_by_key.
Qed.

(** X7: totalSlashes is the number of slash events consumed,
    uniqueAttesters the number of distinct attesters among them, every
    record's slashCount the number of events of its attester, and the
    slash counts add up to totalSlashes. *)
Theorem slash_summary_counts (queryFilter : Z -> Z -> outcome (list SlashedLog))
  (fromBlock toBlock : Z) :
  let events := consumed queryFilter (windows fromBlock toBlock) in
  let data := snd (indexSlashEvents queryFilter fromBlock toBlock) in
  so_totalSlashes data = len events /\
  so_uniqueAttesters data = len (nodup string_dec (map sl_args_attester events)) /\
  Forall (fun r => asr_slashCount r =
                   len (eventsOf String.eqb sl_args_attester (asr_address r) events))
    (so_attesters data) /\
  sumZ (map asr_slashCount (so_attesters data)) = so_totalSlashes data.
Proof.
  intros events data. unfold data, indexSlashEvents. simpl.
  rewrite scanSlashes_consumed. simpl. fold events.
  unfold sortedSlashAttesters. rewrite slashStats_values.
  split; [reflexivity |]. split; [| split].
  - unfold aggregateSlashes.
    rewrite (keys_aggregate String.eqb String.eqb_spec). simpl.
    unfold len. f_equal. apply spreadSet_length_nodup.
  - apply sort_Forall, Forall_map, Forall_map, Forall_forall. intros k _. reflexivity.
  - rewrite (sumZ_perm _ _ (Permutation_map asr_slashCount (sort_perm _ _))).
    rewrite !map_map. simpl. apply len_by_key.
Qed.

(** X8: the total amount slashed of the summary is the sum of the totals
    of the attester records: there are integers, one per record and in the
    order of the records, whose numerals are the records' totals and whose
    sum has the summary's total as its numeral. *)
Theorem slash_total_is_sum_of_attesters
  (queryFilter : Z -> Z -> outcome (list SlashedLog)) (fromBlock toBlock : Z) :
  let data := snd (indexSlashEvents queryFilter fromBlock toBlock) in
  exists amounts,
    map asr_totalAmountSlashed (so_attesters data) = map toString amounts /\
    so_totalAmountSlashed data = toString (sumZ amounts).
Proof.
  intros data. unfold data, indexSlashEvents. simpl.
  rewrite scanSlashes_consumed. simpl.
  set (events := consumed queryFilter (windows fromBlock toBlock)).
  unfold sortedSlashAttesters. rewrite slashStats_values.
  set (out := sort _ _).
  exists (map (fun r => sumZ (map sl_args_amount
                            (eventsOf String.eqb sl_args_attester (asr_address r) events)))
            out).
  split.
  - rewrite map_map. apply map_ext_in. intros r Hr.
    unfold out in Hr. apply sort_In in Hr. rewrite map_map in Hr.
    apply in_map_iff in Hr. destruct Hr as (k & <- & _). reflexivity.
  - f_equal. unfold out.
    rewrite (sumZ_perm _ _ (Permutation_map _ (sort_perm _ _))).
    rewrite !map_map. simpl. symmetry.
    apply sumZ_by_key.
    + apply fold_SetAdd_NoDup; [exact String.eqb_spec | constructor].
    + intros e He. apply encounterOrder_In. now apply in_map.
Qed.

(** Records sorted by a counter, largest first, from the records of the
    addresses in order of first occurrence. *)
Lemma sorted_records_stable {R : Type} (count : R -> Z) (address : R -> string)
  (recordOf : string -> R) (ks : list string) :
  (forall k, address (recordOf k) = k) ->
  let out := sort (fun a b => count b - count a) (map recordOf (encounterOrder ks)) in
  Permutation (map address out) (encounterOrder ks) /\
  StronglySorted (fun a b => count a >= count b) out /\
  forall p q, In p out -> In q out -> count p = count q ->
    (precedes p q out <->
     (firstSeen (address p) ks < firstSeen (address q) ks)%nat).
Proof.
  intros Haddr out.
  assert (Hfwd : forall p q, count p = count q -> precedes p q out ->
             (firstSeen (address p) ks < firstSeen (address q) ks)%nat).
  { intros p q Hc Hp. unfold out in Hp.
    apply (sort_stable count) in Hp; [| exact Hc].
    apply precedes_map_inv in Hp. destruct Hp as (a & b & <- & <- & Hp).
    rewrite !Haddr. now apply encounterOrder_firstSeen. }
  split; [| split; [apply sort_sorted |]].
  - unfold out. rewrite (Permutation_map address (sort_perm _ _)), map_map.
    rewrite (map_ext _ (fun k => k) Haddr). now rewrite map_id.
  - intros p q Hp Hq Hc. split; [now apply Hfwd |].
    intros Hlt. assert (Hne : p <> q) by (intros ->; lia).
    destruct (precedes_total p q _ Hp Hq Hne) as [H | H]; [exact H |].
    apply Hfwd in H; [lia | now symmetry].
Qed.

(** X9: the slashed attesters of a snapshot are listed once each, sorted
    by slashCount, largest first, and attesters with the same slashCount
    stand in the order in which they were first slashed in the stream. *)
Theorem slash_attesters_sorted_stable
  (queryFilter : Z -> Z -> outcome (list SlashedLog)) (fromBlock toBlock : Z) :
  let attesters_ := map sl_args_attester (consumed queryFilter (windows fromBlock toBlock)) in
  let out := so_attesters (snd (indexSlashEvents queryFilter fromBlock toBlock)) in
  Permutation (map asr_address out) (encounterOrder attesters_) /\
  StronglySorted (fun a b => asr_slashCount a >= asr_slashCount b) out /\
  forall p q, In p out -> In q out -> asr_slashCount p = asr_slashCount q ->
    (precedes p q out <->
     (firstSeen (asr_address p) attesters_ < firstSeen (asr_address q) attesters_)%nat).
Proof.
  intros attesters_ out. unfold out, indexSlashEvents. simpl.
  rewrite scanSlashes_consumed. simpl.
  unfold sortedSlashAttesters. rewrite slashStats_values, map_map.
  apply (sorted_records_stable asr_slashCount asr_address). reflexivity.
Qed.

(** ** The withdrawal snapshot against the streams *)

Lemma len_by_keys {E : Type} (key : E -> string) (ks : list string) (evs : list E) :
  NoDup ks -> (forall e, In e evs -> In (key e) ks) ->
  sumZ (map (fun k => len (eventsOf String.eqb key k evs)) ks) = len evs.
Proof.
  intros Hnd Hin. rewrite (len_as_sum evs).
  rewrite <- (sumZ_by_key key (fun _ => 1) ks evs Hnd Hin).
  f_equal. apply map_ext. intros k. apply len_as_sum.
Qed.

Lemma lifecycle_NoDup (inits fins : list WithdrawLog) :
  NoDup (encounterOrder (map w_args_attester inits ++ map w_args_attester fins)).
Proof. apply fold_SetAdd_NoDup; [exact String.eqb_spec | constructor]. Qed.

(** X10: in the exit summary totalInitiated and totalFinalized are the
    numbers of initiated and finalized events collected, uniqueAttesters is
    the number of distinct attesters of the two streams together, and the
    two counters of a record are the numbers of events of its attester. *)
Theorem exit_summary_counts (dateNow : Z) (ts : jsobj Z Z) (scan : ExitScan)
  (fromBlock toBlock : Z) :
  let out := exitOutput dateNow ts scan fromBlock toBlock in
  eo_totalInitiated out = len (initiatedEvents scan) /\
  eo_totalFinalized out = len (finalizedEvents scan) /\
  eo_uniqueAttesters out =
    len (nodup string_dec (map w_args_attester (initiatedEvents scan) ++
                           map w_args_attester (finalizedEvents scan))) /\
  Forall (fun r =>
            aer_initiatedCount r = len (withdrawalsOf (aer_address r) (initiatedEvents scan)) /\
            aer_finalizedCount r = len (withdrawalsOf (aer_address r) (finalizedEvents scan)))
    (eo_attesters out).
Proof.
  intros out. unfold out, exitOutput. simpl.
  rewrite summarize_totals, attesterStats_keys, attesterStats_values. simpl.
  rewrite !map_map. simpl.
  split; [| split; [| split]].
  - apply len_by_keys; [apply lifecycle_NoDup |].
    intros e He. apply encounterOrder_In, in_or_app. left. now apply in_map.
  - apply len_by_keys; [apply lifecycle_NoDup |].
    intros e He. apply encounterOrder_In, in_or_app. right. now apply in_map.
  - unfold len. f_equal. apply spreadSet_length_nodup.
  - apply Forall_forall. intros r Hr.
    apply (eo_attesters_In dateNow ts scan fromBlock toBlock) in Hr.
    destruct Hr as (k & _ & ->). split; reflexivity.
Qed.

(** X11: the attesters of an exit snapshot are listed once each, sorted by
    initiatedCount, largest first; attesters with the same initiatedCount
    stand in the order of first occurrence in the stream of all initiated
    events followed by all finalized events. *)
Theorem exit_attesters_sorted_stable (dateNow : Z) (ts : jsobj Z Z) (scan : ExitScan)
  (fromBlock toBlock : Z) :
  let stream := map w_args_attester (initiatedEvents scan) ++
                map w_args_attester (finalizedEvents scan) in
  let out := eo_attesters (exitOutput dateNow ts scan fromBlock toBlock) in
  Permutation (map aer_address out) (encounterOrder stream) /\
  StronglySorted (fun a b => aer_initiatedCount a >= aer_initiatedCount b) out /\
  forall p q, In p out -> In q out -> aer_initiatedCount p = aer_initiatedCount q ->
    (precedes p q out <->
     (firstSeen (aer_address p) stream < firstSeen (aer_address q) stream)%nat).
Proof.
  intros stream out. unfold out, exitOutput. simpl.
  unfold sortedExitAttesters. rewrite attesterStats_values, map_map.
  apply (sorted_records_stable aer_initiatedCount aer_address). reflexivity.
Qed.

(** X12: the detail lists keep the events of their address in arrival
    order: a prover's blocks, a slashed attester's slashes and an exiting
    attester's initiated and finalized lists are the entries of exactly the
    events that carry the address, in the order of the stream. *)
Theorem details_in_arrival_order
  (queryProofs : Z -> Z -> outcome (list ProofVerifiedLog))
  (querySlashes : Z -> Z -> outcome (list SlashedLog))
  (dateNow : Z) (ts : jsobj Z Z) (scan : ExitScan) (fromBlock toBlock : Z) :
  Forall (fun r => blocks r =
                   map proofBlockOf
                     (eventsOf String.eqb pv_args_proverId (pr_address r)
                        (consumed queryProofs (windows fromBlock toBlock))))
    (provers (snd (indexProofEvents queryProofs fromBlock toBlock))) /\
  Forall (fun r => asr_slashes r =
                   map slashDetailOf
                     (eventsOf String.eqb sl_args_attester (asr_address r)
                        (consumed querySlashes (windows fromBlock toBlock))))
    (so_attesters (snd (indexSlashEvents querySlashes fromBlock toBlock))) /\
  Forall (fun r => aer_initiated r =
                     map (initiatedDetailOf (dateNow / 1000) ts)
                       (withdrawalsOf (aer_address r) (initiatedEvents scan)) /\
                   aer_finalized r =
                     map finalizedDetailOf
                       (withdrawalsOf (aer_address r) (finalizedEvents scan)))
    (eo_attesters (exitOutput dateNow ts scan fromBlock toBlock)).
Proof.
  split; [| split].
  - unfold indexProofEvents. simpl. rewrite scanProofs_consumed. simpl.
    unfold sortedProvers. apply sort_Forall. rewrite proverStats_values.
    apply Forall_map, Forall_forall. intros k _. reflexivity.
  - unfold indexSlashEvents. simpl. rewrite scanSlashes_consumed. simpl.
    unfold sortedSlashAttesters. apply sort_Forall. rewrite slashStats_values.
    apply Forall_map, Forall_map, Forall_forall. intros k _. reflexivity.
  - apply Forall_forall. intros r Hr. apply eo_attesters_In in Hr.
    destruct Hr as (k & _ & ->). split; reflexivity.
Qed.

(** X13: the two amounts of an exiting attester's record are the decimal
    numerals of the exact sums of the amounts of its initiated and of its
    finalized events. *)
Theorem exit_amounts_exact (dateNow : Z) (ts : jsobj Z Z) (scan : ExitScan)
  (fromBlock toBlock : Z) :
  Forall (fun r =>
            aer_totalInitiatedAmount r =
              toString (sumZ (map w_args_amount
                                (withdrawalsOf (aer_address r) (initiatedEvents scan)))) /\
            aer_totalFinalizedAmount r =
              toString (sumZ (map w_args_amount
                                (withdrawalsOf (aer_address r) (finalizedEvents scan)))))
    (eo_attesters (exitOutput dateNow ts scan fromBlock toBlock)).
Proof.
  apply Forall_forall. intros r Hr. apply eo_attesters_In in Hr.
  destruct Hr as (k & _ & ->). split; reflexivity.
Qed.

(** X14: the withdrawal events of a window are kept only when both of its
    queries resolved: an event is among the initiated (finalized) events
    collected exactly when some window had both queries resolve and the
    event among the initiated (finalized) ones returned. *)
Theorem exit_window_all_or_nothing (qi qf : Z -> Z -> outcome (list WithdrawLog))
  (fromBlock toBlock : Z) (e : WithdrawLog) :
  let scan := scanExits qi qf fromBlock toBlock in
  (In e (initiatedEvents scan) <->
   exists w i f, In w (windows fromBlock toBlock) /\
                 qi (fst w) (snd w) = Resolved i /\
                 qf (fst w) (snd w) = Resolved f /\ In e i) /\
  (In e (finalizedEvents scan) <->
   exists w i f, In w (windows fromBlock toBlock) /\
                 qi (fst w) (snd w) = Resolved i /\
                 qf (fst w) (snd w) = Resolved f /\ In e f).
Proof.
  intros scan. unfold scan. rewrite scanExits_consumed. simpl.
  unfold consumed, settledInitiated, settledFinalized, bothWithdraw.
  split; rewrite in_flat_map; split.
  - intros (w & Hw & He).
    destruct (qi (fst w) (snd w)) as [i | m] eqn:Ei; [| destruct He].
    destruct (qf (fst w) (snd w)) as [f | m] eqn:Ef; [| destruct He].
    now exists w, i, f.
  - intros (w & i & f & Hw & Ei & Ef & He). exists w. split; [exact Hw |].
    now rewrite Ei, Ef.
  - intros (w & Hw & He).
    destruct (qi (fst w) (snd w)) as [i | m] eqn:Ei; [| destruct He].
    destruct (qf (fst w) (snd w)) as [f | m] eqn:Ef; [| destruct He].
    now exists w, i, f.
  - intros (w & i & f & Hw & Ei & Ef & He). exists w. split; [exact Hw |].
    now rewrite Ei, Ef.
Qed.

(** ** Pending exits, the clock and the timestamps *)

Lemma lastn_map {A B : Type} (g : A -> B) (n : nat) (l : list A) :
  lastn n (map g l) = map g (lastn n l).
Proof. unfold lastn. now rewrite length_map, skipn_map. Qed.

Lemma flat_map_map {A B C : Type} (g : A -> B) (h : B -> list C) (l : list A) :
  flat_map h (map g l) = flat_map (fun x => h (g x)) l.
Proof. induction l as [| x l IH]; simpl; [reflexivity | now rewrite IH]. Qed.

(** The pending exits of the summary loop, read off the events. *)
Lemma pendingOfAttesters_events (now : Z) (ts : jsobj Z Z) (inits fins : list WithdrawLog) :
  pendingOfAttesters (Object_values (buildAttesterStats now ts inits fins)) =
  flat_map (fun k => map (fun e => mkPendingExit k (initiatedDetailOf now ts e))
                       (pendingEventsOf inits fins k))
    (encounterOrder (map w_args_attester inits ++ map w_args_attester fins)).
Proof.
  rewrite attesterStats_values. unfold pendingOfAttesters. rewrite flat_map_map.
  apply flat_map_ext. intros k.
  rewrite unfinalizedOf_lastn.
  - simpl. rewrite lastn_map, map_map. reflexivity.
  - simpl. unfold len. now rewrite length_map.
  - simpl. unfold len. lia.
Qed.

Lemma len_filter_pending (P : InitiatedDetail -> bool) (D : WithdrawLog -> InitiatedDetail)
  (G : string -> list WithdrawLog) (ks : list string) :
  len (filter (fun p => P (exit p))
         (flat_map (fun k => map (fun e => mkPendingExit k (D e)) (G k)) ks)) =
  len (filter (fun e => P (D e)) (flat_map G ks)).
Proof.
  induction ks as [| k ks IH]; simpl; [reflexivity |].
  rewrite !filter_app, !len_app, IH. f_equal.
  unfold len. f_equal.
  induction (G k) as [| e l IHl]; simpl; [reflexivity |].
  destruct (P (D e)); simpl; now rewrite IHl.
Qed.

Lemma len_filter_le {A : Type} (g h : A -> bool) (l : list A) :
  (forall x, g x = true -> h x = true) -> len (filter g l) <= len (filter h l).
Proof.
  intros Hgh. unfold len. apply inj_le.
  induction l as [| x l IH]; simpl; [lia |].
  destruct (g x) eqn:Eg.
  - rewrite (Hgh x Eg). simpl. lia.
  - destruct (h x); simpl; lia.
Qed.

Lemma sortInsert_map {A B : Type} (h : A -> B) (cmp : B -> B -> Z) (x : A) (l : list A) :
  sortInsert cmp (h x) (map h l) =
  map h (sortInsert (fun a b => cmp (h a) (h b)) x l).
Proof.
  induction l as [| y l IH]; simpl; [reflexivity |].
  destruct (cmp (h x) (h y) <=? 0); simpl; [reflexivity | now rewrite IH].
Qed.

Lemma sort_map {A B : Type} (h : A -> B) (cmp : B -> B -> Z) (l : list A) :
  sort cmp (map h l) = map h (sort (fun a b => cmp (h a) (h b)) l).
Proof.
  induction l as [| x l IH]; simpl; [reflexivity |].
  now rewrite IH, sortInsert_map.
Qed.

Lemma filter_true {A : Type} (l : list A) : filter (fun _ => true) l = l.
Proof. induction l as [| x l IH]; simpl; [reflexivity | now rewrite IH]. Qed.

(** X15: which withdrawals are pending depends on the events alone: the
    counters of the summary, the attesters and their counters are the same
    whatever the clock and the timestamps; and with the same timestamps a
    later clock never lowers pendingCanFinalize nor raises
    pendingCannotFinalize. *)
Theorem exit_summary_and_clock (dateNow dateNow' : Z) (ts ts' : jsobj Z Z)
  (scan : ExitScan) (fromBlock toBlock : Z) :
  let out := exitOutput dateNow ts scan fromBlock toBlock in
  let out' := exitOutput dateNow' ts' scan fromBlock toBlock in
  eo_totalPending out' = eo_totalPending out /\
  eo_totalInitiated out' = eo_totalInitiated out /\
  eo_totalFinalized out' = eo_totalFinalized out /\
  eo_uniqueAttesters out' = eo_uniqueAttesters out /\
  map (fun r => (aer_address r, aer_initiatedCount r, aer_finalizedCount r))
    (eo_attesters out') =
  map (fun r => (aer_address r, aer_initiatedCount r, aer_finalizedCount r))
    (eo_attesters out) /\
  (ts' = ts -> dateNow <= dateNow' ->
   eo_pendingCanFinalize out <= eo_pendingCanFinalize out' /\
   eo_pendingCannotFinalize out' <= eo_pendingCannotFinalize out).
Proof.
  intros out out'. unfold out, out', exitOutput. simpl.
  rewrite !summarize_totals, !attesterStats_keys. simpl.
  rewrite !sort_length, !pendingOfAttesters_events.
  unfold sortedExitAttesters. rewrite !attesterStats_values.
  set (ks := encounterOrder _).
  set (G := pendingEventsOf (initiatedEvents scan) (finalizedEvents scan)).
  assert (Hlen : forall now1 ts1,
             len (flat_map (fun k => map (fun e => mkPendingExit k (initiatedDetailOf now1 ts1 e))
                                       (G k)) ks) =
             len (flat_map G ks)).
  { intros now1 ts1.
    pose proof (len_filter_pending (fun _ => true) (initiatedDetailOf now1 ts1) G ks) as H.
    now rewrite !filter_true in H. }
  split; [now rewrite !Hlen |].
  split; [now rewrite !map_map |]. split; [now rewrite !map_map |].
  split; [reflexivity |]. split.
  - rewrite !map_map, !sort_map, !map_map. reflexivity.
  - intros -> Hle.
    rewrite !(len_filter_pending canFinalize).
    rewrite !(len_filter_pending (fun d => negb (canFinalize d))).
    assert (Hmono : forall x, geNumber (dateNow / 1000) x = true ->
                              geNumber (dateNow' / 1000) x = true).
    { intros [v |]; simpl; [| discriminate]. intros H.
      apply Z.leb_le in H. apply Z.leb_le.
      pose proof (Z.div_le_mono dateNow dateNow' 1000 ltac:(lia) Hle). lia. }
    split; apply len_filter_le; intros e; unfold initiatedDetailOf; simpl.
    + apply Hmono.
    + intros H. apply negb_true_iff in H. apply negb_true_iff.
      destruct (geNumber (dateNow / 1000) _) eqn:E; [| reflexivity].
      apply Hmono in E. congruence.
Qed.

Lemma exit_summary_and_clock_witness :
  let scan := mkExitScan [mkWithdrawLog addr1 addr3 500 (sampleTx 1) 100] [] [] in
  eo_pendingCanFinalize (exitOutput 2209599000 [(100, 1000000)] scan 100 100) <=
  eo_pendingCanFinalize (exitOutput 2209600000 [(100, 1000000)] scan 100 100).
Proof.
  intros scan.
  refine (proj1 (proj2 (proj2 (proj2 (proj2 (proj2
    (exit_summary_and_clock 2209599000 2209600000 [(100, 1000000)] [(100, 1000000)]
       scan 100 100))))) eq_refl _)).
  lia.
Defined.

(** Sorting by a numeric field, smallest first, with a comparator that is
    the difference of the fields on the elements of the list. *)
Lemma sortInsert_ascending {A : Type} (cmp : A -> A -> Z) (f : A -> Z) (x : A) (l : list A) :
  (forall y, In y l -> cmp x y = f x - f y) ->
  StronglySorted (fun a b => f a <= f b) l ->
  StronglySorted (fun a b => f a <= f b) (sortInsert cmp x l).
Proof.
  induction l as [| y l IH]; simpl; intros Hcmp Hs.
  - repeat constructor.
  - inversion Hs as [| ? ? Hs' Hall]; subst.
    pose proof (Hcmp y (or_introl eq_refl)) as Hy.
    destruct (Z.leb_spec (cmp x y) 0) as [Hle | Hgt].
    + constructor; [exact Hs |]. constructor; [lia |].
      eapply Forall_impl; [| exact Hall]. simpl. intros z Hz. lia.
    + constructor; [apply IH; [intros z Hz; apply Hcmp; now right | exact Hs'] |].
      apply Forall_forall. intros z Hz.
      apply sortInsert_In in Hz. destruct Hz as [-> | Hz]; [lia |].
      rewrite Forall_forall in Hall. now apply Hall.
Qed.

Lemma sort_ascending {A : Type} (cmp : A -> A -> Z) (f : A -> Z) (l : list A) :
  (forall a b, In a l -> In b l -> cmp a b = f a - f b) ->
  StronglySorted (fun a b => f a <= f b) (sort cmp l).
Proof.
  induction l as [| x l IH]; simpl; intros Hcmp; [constructor |].
  apply sortInsert_ascending.
  - intros y Hy. apply sort_In in Hy. apply Hcmp; [now left | now right].
  - apply IH. intros a b Ha Hb. apply Hcmp; now right.
Qed.

(** A resolved timestamp loop looked every block up with success. *)
Lemma resolveTimestamps_covers (getBlock_ : Z -> outcome Block) (events : list WithdrawLog)
  (ts : jsobj Z Z) (e : WithdrawLog) :
  fst (resolveTimestamps getBlock_ events) = Resolved ts ->
  (forall bn b, getBlock_ bn = Resolved b -> block_number b = bn) ->
  In e events ->
  exists T, getBlock_ (w_blockNumber e) = Resolved (mkBlock (w_blockNumber e) T) /\
            get Z.eqb ts (w_blockNumber e) = Some T.
Proof.
  intros Hres Hfaith Hin.
  assert (Hok : resolves (getBlock_ (w_blockNumber e)) = true).
  { unfold resolveTimestamps in Hres.
    destruct (timestampLoop_trace getBlock_
                (spreadSet Z.eqb (map w_blockNumber events)) 0 (Z.le_refl 0)
                (mkLookups [] []))
      as (nb & rest & _ & Hskip & _ & _ & Hts).
    rewrite Hres in Hts. destruct Hts as (-> & Hall & _).
    simpl in Hskip. rewrite app_nil_r in Hskip. rewrite <- Hskip in Hall.
    rewrite Forall_forall in Hall. apply Hall.
    apply spreadSet_In_Z. now apply in_map. }
  destruct (getBlock_ (w_blockNumber e)) as [b | m] eqn:Eb; [| discriminate].
  pose proof (Hfaith _ _ Eb) as Hn. destruct b as [n T]. simpl in Hn. subst n.
  exists T. split; [reflexivity |].
  now apply (resolveTimestamps_get getBlock_ events ts e T).
Qed.

(** X16: in an exit run that wrote its snapshot, with a provider that
    answers a lookup with the block asked for, every pending exit carries
    the timestamp of its block and exitableAt 1209600 seconds later, and
    the pending exits are listed by exitableAt, soonest first. *)
Theorem pending_exits_ascending (qi qf : Z -> Z -> outcome (list WithdrawLog))
  (getBlock_ : Z -> outcome Block) (dateNow fromBlock toBlock : Z) (out : ExitOutput) :
  er_result (indexExitEvents qi qf getBlock_ dateNow fromBlock toBlock) = Resolved out ->
  (forall bn b, getBlock_ bn = Resolved b -> block_number b = bn) ->
  Forall (fun p => exists T,
            getBlock_ (i_ethBlockNumber (exit p)) =
              Resolved (mkBlock (i_ethBlockNumber (exit p)) T) /\
            timestamp (exit p) = Some T /\
            exitableAt (exit p) = Some (T + 1209600))
    (eo_pendingExits out) /\
  StronglySorted (fun a b => numberOrNull (exitableAt (exit a)) <=
                             numberOrNull (exitableAt (exit b)))
    (eo_pendingExits out).
Proof.
  intros Hrun Hfaith. unfold indexExitEvents in Hrun.
  set (scan := scanExits qi qf fromBlock toBlock) in *.
  pose proof (resolveTimestamps_covers getBlock_ (initiatedEvents scan)) as Hcov.
  destruct (resolveTimestamps getBlock_ (initiatedEvents scan)) as [[ts | m] issued];
    simpl in Hrun; [| discriminate].
  injection Hrun as <-. specialize (Hcov ts).
  unfold exitOutput. simpl. rewrite summarize_totals. simpl.
  set (pend := pendingOfAttesters _).
  assert (Hpend : Forall (fun p => exists T,
                            getBlock_ (i_ethBlockNumber (exit p)) =
                              Resolved (mkBlock (i_ethBlockNumber (exit p)) T) /\
                            timestamp (exit p) = Some T /\
                            exitableAt (exit p) = Some (T + 1209600)) pend).
  { unfold pend. rewrite pendingOfAttesters_events. apply Forall_forall.
    intros p Hp. apply in_flat_map in Hp. destruct Hp as (k & _ & Hp).
    apply in_map_iff in Hp. destruct Hp as (e & <- & He).
    unfold pendingEventsOf, lastn in He. apply In_skipn in He.
    unfold withdrawalsOf, eventsOf in He. apply filter_In in He. destruct He as [He _].
    destruct (Hcov e eq_refl Hfaith He) as (T & Hb & Hget).
    exists T. unfold initiatedDetailOf. simpl. rewrite Hget. simpl.
    repeat split; assumption. }
  split; [now apply sort_Forall |].
  apply sort_ascending. intros a b Ha Hb.
  rewrite Forall_forall in Hpend.
  destruct (Hpend a Ha) as (Ta & _ & _ & Hxa).
  destruct (Hpend b Hb) as (Tb & _ & _ & Hxb).
  unfold byExitableAt. now rewrite Hxa, Hxb.
Qed.

Lemma pending_exits_ascending_witness :
  let out := exitOutput 1700000000000
               [(101, 1001212); (102, 1001224); (105, 1001260)]
               (mkExitScan timelineLogs [] []) 100 200 in
  map (fun p => (attester p, i_ethBlockNumber (exit p))) (eo_pendingExits out) =
    [(addr1, 101); (addr2, 102); (addr1, 105)] /\
  StronglySorted (fun a b => numberOrNull (exitableAt (exit a)) <=
                             numberOrNull (exitableAt (exit b)))
    (eo_pendingExits out).
Proof.
  intros out. split; [reflexivity |].
  refine (proj2 (pending_exits_ascending (queryWithdrawInitiated timelineChain)
                   (queryWithdrawFinalized timelineChain) (getBlock timelineChain)
                   1700000000000 100 200 out eq_refl _)).
  intros bn b H. injection H as <-. reflexivity.
Defined.

(** ** How many lookups *)

Lemma batches_count {P : list Z -> Prop} (nb : list (list Z)) :
  Forall (fun b => (1 <= length b <= 10)%nat) nb ->
  allButLast (fun b => length b = 10%nat /\ P b) nb ->
  len nb = (len (concat nb) + 9) / 10.
Proof.
  induction nb as [| b nb IH]; intros Hlens Hprev; [reflexivity |].
  inversion Hlens as [| ? ? Hb Hlens']; subst.
  rewrite len_cons. simpl concat. rewrite len_app.
  destruct nb as [| b' nb].
  - simpl concat. change (len (@nil (list Z))) with 0. change (len (@nil Z)) with 0.
    unfold len. symmetry.
    replace (Z.of_nat (length b) + 0 + 9) with (Z.of_nat (length b) - 1 + 1 * 10) by lia.
    rewrite Z.div_add by lia. rewrite Z.div_small by lia. reflexivity.
  - simpl in Hprev. destruct Hprev as [[Hten _] Hprev].
    rewrite (IH Hlens' Hprev).
    unfold len at 2. rewrite Hten.
    replace (Z.of_nat 10 + len (concat (b' :: nb)) + 9)
      with (len (concat (b' :: nb)) + 9 + 1 * 10) by lia.
    rewrite Z.div_add by lia. reflexivity.
Qed.

(** X17: an exit run whose timestamp lookups all resolve looks every
    distinct block number of the initiated events up exactly once, in
    ceil(n / 10) batches for n distinct block numbers, and n is at most
    the number of initiated events. *)
Theorem timestamp_lookup_count (qi qf : Z -> Z -> outcome (list WithdrawLog))
  (getBlock_ : Z -> outcome Block) (dateNow fromBlock toBlock : Z) (out : ExitOutput) :
  let r := indexExitEvents qi qf getBlock_ dateNow fromBlock toBlock in
  let events := initiatedEvents (scanExits qi qf fromBlock toBlock) in
  let uniqueBlocks := spreadSet Z.eqb (map w_blockNumber events) in
  er_result r = Resolved out ->
  concat (er_batches r) = uniqueBlocks /\
  len (er_batches r) = (len uniqueBlocks + 9) / 10 /\
  len uniqueBlocks <= len events.
Proof.
  intros r events uniqueBlocks Hrun. unfold r, indexExitEvents in *.
  fold events in Hrun |- *. unfold resolveTimestamps in *.
  fold uniqueBlocks in Hrun |- *.
  destruct (timestampLoop_trace getBlock_ uniqueBlocks 0 (Z.le_refl 0) (mkLookups [] []))
    as (nb & rest & Hsnd & Hskip & Hlens & Hprev & Hres).
  simpl in Hsnd, Hskip.
  destruct (timestampLoop getBlock_ uniqueBlocks 0 (mkLookups [] [])) as [[ts | m] issued];
    simpl in *; [| discriminate].
  subst issued. destruct Hres as (-> & _ & _). rewrite app_nil_r in Hskip.
  split; [now symmetry |]. split.
  - rewrite Hskip. exact (batches_count nb Hlens Hprev).
  - unfold len. apply inj_le.
    rewrite <- (length_map w_blockNumber events).
    apply NoDup_incl_length; [apply spreadSet_NoDup_Z |].
    intros bn Hbn. now apply spreadSet_In_Z.
Qed.

Lemma timestamp_lookup_count_witness :
  let r := indexExitEvents (queryWithdrawInitiated timelineChain)
             (queryWithdrawFinalized timelineChain) (getBlock timelineChain)
             1700000000000 100 200 in
  er_batches r = [[101; 102; 105]] /\ len (er_batches r) = (3 + 9) / 10.
Proof.
  intros r. split; [reflexivity |].
  exact (proj1 (proj2 (timestamp_lookup_count (queryWithdrawInitiated timelineChain)
                         (queryWithdrawFinalized timelineChain) (getBlock timelineChain)
                         1700000000000 100 200
                         (exitOutput 1700000000000
                            [(101, 1001212); (102, 1001224); (105, 1001260)]
                            (mkExitScan timelineLogs [] []) 100 200)
                         eq_refl))).
Defined.

(** ** Chunking against a provider that serves a fixed log *)

Lemma filter_none {A : Type} (g : A -> bool) (l : list A) :
  (forall x, In x l -> g x = false) -> filter g l = [].
Proof.
  induction l as [| x l IH]; simpl; intros H; [reflexivity |].
  rewrite (H x (or_introl eq_refl)). apply IH. intros y Hy. apply H. now right.
Qed.

Lemma range_split_sorted {E : Type} (blockOf : E -> Z) (all : list E) (s e t : Z) :
  StronglySorted (fun a b => blockOf a <= blockOf b) all ->
  s <= e + 1 -> e <= t ->
  filter (fun ev => (s <=? blockOf ev) && (blockOf ev <=? e)) all ++
  filter (fun ev => (e + 1 <=? blockOf ev) && (blockOf ev <=? t)) all =
  filter (fun ev => (s <=? blockOf ev) && (blockOf ev <=? t)) all.
Proof.
  intros Hsorted Hs He. induction all as [| x l IH]; [reflexivity |].
  inversion Hsorted as [| ? ? Hl Hall]; subst. specialize (IH Hl).
  cbn [filter].
  destruct (Z.leb_spec s (blockOf x)), (Z.leb_spec (blockOf x) e),
    (Z.leb_spec (e + 1) (blockOf x)), (Z.leb_spec (blockOf x) t);
    cbn [andb]; try lia; try exact IH.
  - simpl. now rewrite IH.
  - rewrite <- IH.
    rewrite (filter_none (fun ev => (s <=? blockOf ev) && (blockOf ev <=? e)) l).
    + reflexivity.
    + intros y Hy. rewrite Forall_forall in Hall. specialize (Hall y Hy).
      destruct (Z.leb_spec (blockOf y) e); [lia |]. apply andb_false_r.
Qed.

Lemma consumed_logsIn {E : Type} (blockOf : E -> Z) (all : list E) (fromBlock toBlock : Z) :
  StronglySorted (fun a b => blockOf a <= blockOf b) all ->
  consumed (logsIn blockOf all) (windows fromBlock toBlock) =
  filter (fun ev => (fromBlock <=? blockOf ev) && (blockOf ev <=? toBlock)) all /\
  failures (logsIn blockOf all) (windows fromBlock toBlock) = [].
Proof.
  intros Hsorted. pattern fromBlock. apply (chunk_ind toBlock). clear fromBlock.
  intros start IH. rewrite windows_unfold.
  destruct (Z.leb_spec start toBlock) as [Hle | Hgt].
  - destruct (IH Hle) as [IHc IHf].
    change (consumed (logsIn blockOf all)
              ((start, Z.min (start + CHUNK_SIZE - 1) toBlock)
               :: windows (start + CHUNK_SIZE) toBlock))
      with (filter (fun ev => (start <=? blockOf ev) &&
                              (blockOf ev <=? Z.min (start + CHUNK_SIZE - 1) toBlock)) all
            ++ consumed (logsIn blockOf all) (windows (start + CHUNK_SIZE) toBlock)).
    change (failures (logsIn blockOf all)
              ((start, Z.min (start + CHUNK_SIZE - 1) toBlock)
               :: windows (start + CHUNK_SIZE) toBlock))
      with (failures (logsIn blockOf all) (windows (start + CHUNK_SIZE) toBlock)).
    rewrite IHc, IHf. split; [| reflexivity].
    unfold CHUNK_SIZE.
    destruct (Z_le_gt_dec (start + 10000) toBlock) as [Hnext | Hlast].
    + rewrite Z.min_l by lia.
      rewrite <- (range_split_sorted blockOf all start (start + 10000 - 1) toBlock Hsorted)
        by lia.
      replace (start + 10000 - 1 + 1) with (start + 10000) by lia. reflexivity.
    + rewrite Z.min_r by lia.
      rewrite (filter_none (fun ev => (start + 10000 <=? blockOf ev) &&
                                      (blockOf ev <=? toBlock)) all).
      * apply app_nil_r.
      * intros x _. destruct (Z.leb_spec (start + 10000) (blockOf x)),
                      (Z.leb_spec (blockOf x) toBlock); simpl; try reflexivity; lia.
  - split; [| reflexivity]. symmetry. apply filter_none.
    intros x _. destruct (Z.leb_spec start (blockOf x)),
                  (Z.leb_spec (blockOf x) toBlock); simpl; try reflexivity; lia.
Qed.

(** X24: against a provider that serves, for every window, the logs of a
    fixed log that fall into it, the log being in block order, chunking is
    invisible: the withdrawal scan collects exactly the initiated and the
    finalized logs of the range, each once and in log order, and skips no
    window; the proof scan counts exactly the proof logs of the range. *)
Theorem chunking_is_transparent (initiatedLog finalizedLog : list WithdrawLog)
  (proofLog : list ProofVerifiedLog) (fromBlock toBlock : Z) :
  StronglySorted (fun a b => w_blockNumber a <= w_blockNumber b) initiatedLog ->
  StronglySorted (fun a b => w_blockNumber a <= w_blockNumber b) finalizedLog ->
  StronglySorted (fun a b => pv_blockNumber a <= pv_blockNumber b) proofLog ->
  let inRange := fun b => (fromBlock <=? b) && (b <=? toBlock) in
  scanExits (logsIn w_blockNumber initiatedLog) (logsIn w_blockNumber finalizedLog)
    fromBlock toBlock =
  mkExitScan (filter (fun ev => inRange (w_blockNumber ev)) initiatedLog)
    (filter (fun ev => inRange (w_blockNumber ev)) finalizedLog) [] /\
  fst (indexProofEvents (logsIn pv_blockNumber proofLog) fromBlock toBlock) = [] /\
  po_totalProofs (snd (indexProofEvents (logsIn pv_blockNumber proofLog) fromBlock toBlock)) =
  len (filter (fun ev => inRange (pv_blockNumber ev)) proofLog).
Proof.
  intros Hi Hf Hp inRange. split; [| split].
  - rewrite scanExits_consumed.
    assert (Hqi : forall s e,
               settledInitiated (logsIn w_blockNumber initiatedLog)
                 (logsIn w_blockNumber finalizedLog) s e =
               logsIn w_blockNumber initiatedLog s e) by reflexivity.
    assert (Hqf : forall s e,
               settledFinalized (logsIn w_blockNumber initiatedLog)
                 (logsIn w_blockNumber finalizedLog) s e =
               logsIn w_blockNumber finalizedLog s e) by reflexivity.
    rewrite (consumed_ext _ _ _ Hqi), (consumed_ext _ _ _ Hqf), (failures_ext _ _ _ Hqi).
    destruct (consumed_logsIn w_blockNumber initiatedLog fromBlock toBlock Hi) as [-> ->].
    destruct (consumed_logsIn w_blockNumber finalizedLog fromBlock toBlock Hf) as [-> _].
    reflexivity.
  - unfold indexProofEvents. rewrite scanProofs_consumed. simpl.
    apply (consumed_logsIn pv_blockNumber proofLog fromBlock toBlock Hp).
  - unfold indexProofEvents. rewrite scanProofs_consumed. simpl.
    now destruct (consumed_logsIn pv_blockNumber proofLog fromBlock toBlock Hp) as [-> _].
Qed.

Lemma chunking_is_transparent_witness :
  initiatedEvents
    (scanExits (logsIn w_blockNumber twelveInitiated) (logsIn w_blockNumber timelineLogs)
       102 25000) =
  filter (fun ev => (102 <=? w_blockNumber ev) && (w_blockNumber ev <=? 25000))
    twelveInitiated.
Proof.
  refine (f_equal initiatedEvents
            (proj1 (chunking_is_transparent twelveInitiated timelineLogs proofLogs
                      102 25000 _ _ _))).
  - unfold twelveInitiated. simpl. repeat constructor; simpl; lia.
  - unfold timelineLogs. repeat constructor; simpl; lia.
  - unfold proofLogs. repeat constructor; simpl; lia.
Defined.

(** * Properties of the snapshot reader *)

(** ** Finding the latest snapshot *)

Lemma prefix_append (p x : string) : String.prefix p (p ++ x) = true.
Proof.
  induction p as [| c p IH]; simpl; [destruct x; reflexivity |].
  destruct (ascii_dec c c); [exact IH | congruence].
Qed.

Lemma endsWith_append (a p : string) : endsWith (a ++ p) p = true.
Proof.
  induction a as [| c a IH].
  - change (endsWith p p = true). destruct p; cbn [endsWith];
      now rewrite String.eqb_refl.
  - change (endsWith (String c (a ++ p)) p = true). cbn [endsWith].
    destruct (String.eqb (String c (a ++ p)) p); [reflexivity | exact IH].
Qed.

Lemma string_append_assoc (a b c : string) : ((a ++ b) ++ c = a ++ (b ++ c))%string.
Proof. induction a as [| x a IH]; simpl; [reflexivity | now rewrite IH]. Qed.

(** What [getLatestStatsFile] returns, case by case. *)
Lemma getLatestStatsFile_spec (dataDir : string) (listing : option (list (string * Z)))
  (mode : string) :
  match getLatestStatsFile dataDir listing mode with
  | inr path =>
      exists entries name time,
        listing = Some entries /\ In (name, time) entries /\
        startsWith name (filePrefixOf mode) = true /\ endsWith name ".json" = true /\
        path = (dataDir ++ "/" ++ name)%string /\
        forall entry, In entry entries -> isStatsFile mode entry = true ->
                      snd entry <= time
  | inl error =>
      (listing = None /\ error = NoDataDirectory (commandOf mode)) \/
      (exists entries, listing = Some entries /\
                       (forall entry, In entry entries -> isStatsFile mode entry = false) /\
                       error = NoStatsFiles (modeNameOf mode) (commandOf mode))
  end.
Proof.
  unfold getLatestStatsFile. destruct listing as [entries |]; [| now left].
  set (mk := fun entry : string * Z =>
               mkStatsFile (fst entry) (dataDir ++ "/" ++ fst entry)%string (snd entry)).
  set (files := sort (fun a b => sf_time b - sf_time a)
                  (map mk (filter (isStatsFile mode) entries))).
  pose proof (sort_sorted sf_time (map mk (filter (isStatsFile mode) entries))) as Hsorted.
  fold files in Hsorted.
  assert (Hin : forall f, In f files <->
                          exists entry, In entry entries /\
                                        isStatsFile mode entry = true /\ f = mk entry).
  { intros f. unfold files. rewrite sort_In, in_map_iff. split.
    - intros (entry & <- & He). apply filter_In in He. now exists entry.
    - intros (entry & He & Hm & ->). exists entry. split; [reflexivity |].
      now apply filter_In. }
  destruct files as [| latest rest].
  - right. exists entries. repeat split.
    intros entry He. destruct (isStatsFile mode entry) eqn:E; [| reflexivity].
    exfalso. apply (proj2 (Hin (mk entry))). now exists entry.
  - destruct (proj1 (Hin latest) (or_introl eq_refl)) as ([name time] & He & Hm & ->).
    exists entries, name, time.
    unfold isStatsFile in Hm. simpl in Hm. apply andb_true_iff in Hm.
    destruct Hm as [Hp Hs].
    repeat split; try assumption.
    intros entry Hentry Hok.
    assert (Hf : In (mk entry) (mk (name, time) :: rest))
      by (apply Hin; now exists entry).
    destruct Hf as [Heq | Hrest].
    + apply (f_equal sf_time) in Heq. simpl in Heq. lia.
    + inversion Hsorted as [| ? ? _ Hall]; subst.
      rewrite Forall_forall in Hall. specialize (Hall _ Hrest). simpl in Hall. lia.
Qed.

(** X18: [getLatestStatsFile] returns the path of a file of the data
    directory whose name starts with the prefix of the mode and ends in
    .json, and no such file of the directory was modified later; it ends
    the process with an error exactly when the directory is missing or
    holds no such file. *)
Theorem latest_stats_file (dataDir : string) (listing : option (list (string * Z)))
  (mode : string) :
  match getLatestStatsFile dataDir listing mode with
  | inr path =>
      exists entries name time,
        listing = Some entries /\ In (name, time) entries /\
        startsWith name (filePrefixOf mode) = true /\ endsWith name ".json" = true /\
        path = (dataDir ++ "/" ++ name)%string /\
        forall entry, In entry entries -> isStatsFile mode entry = true ->
                      snd entry <= time
  | inl error =>
      (listing = None /\ error = NoDataDirectory (commandOf mode)) \/
      (exists entries, listing = Some entries /\
                       (forall entry, In entry entries -> isStatsFile mode entry = false) /\
                       error = NoStatsFiles (modeNameOf mode) (commandOf mode))
  end.
Proof. apply getLatestStatsFile_spec. Qed.

Lemma written_kind (env : Env) (chain : Chain) (dateNow : Z) (s : Snapshot) :
  written (main env chain dateNow) = Some s ->
  filePrefixOf (readerMode env) =
  match s with
  | ProverStats _ => "prover-stats-"
  | SlashStats _ => "slash-stats-"
  | ExitStats _ => "exit-stats-"
  end%string.
Proof.
  unfold main, readerMode.
  destruct (notSet (SEPOLIA_RPC_URL env)); [discriminate |].
  destruct (notSet (ROLLUP_CONTRACT_ADDRESS env)); [discriminate |].
  destruct (getBlockNumber chain) as [currentBlock | m]; [| discriminate].
  destruct (EXIT_MODE env).
  - destruct (er_result _); simpl; [| discriminate]. now intros [= <-].
  - destruct (SLASH_MODE env).
    + destruct (indexSlashEvents _ _ _). simpl. now intros [= <-].
    + destruct (indexProofEvents _ _ _). simpl. now intros [= <-].
Qed.

Lemma outputFileName_isStatsFile (s : Snapshot) (writtenAt time : Z) (mode : string) :
  isStatsFile mode (outputFileName s writtenAt, time) =
  String.eqb (filePrefixOf mode)
    match s with
    | ProverStats _ => "prover-stats-"
    | SlashStats _ => "slash-stats-"
    | ExitStats _ => "exit-stats-"
    end.
Proof.
  unfold isStatsFile. simpl fst.
  assert (Hs : endsWith (outputFileName s writtenAt) ".json" = true).
  { destruct s; unfold outputFileName; rewrite <- string_append_assoc;
      apply endsWith_append. }
  rewrite Hs, andb_true_r. unfold startsWith, filePrefixOf.
  destruct s; unfold outputFileName;
    destruct (String.eqb mode "exit"); try reflexivity;
    try (rewrite prefix_append; reflexivity);
    destruct (String.eqb mode "slash"); try reflexivity;
    rewrite prefix_append; reflexivity.
Qed.

(** X19: the reader finds what the indexer wrote.  The file a run writes
    its snapshot to belongs to the mode the reader derives from the same
    command line and to no mode with another prefix; when it is the most
    recently modified file of that mode in the data directory, the reader
    returns its path. *)
Theorem snapshot_found_by_reader (env : Env) (chain : Chain) (dateNow writtenAt : Z)
  (s : Snapshot) (dataDir : string) (entries : list (string * Z)) (time : Z) :
  written (main env chain dateNow) = Some s ->
  In (outputFileName s writtenAt, time) entries ->
  (forall entry, In entry entries -> isStatsFile (readerMode env) entry = true ->
                 entry = (outputFileName s writtenAt, time) \/ snd entry < time) ->
  getLatestStatsFile dataDir (Some entries) (readerMode env) =
    inr (dataDir ++ "/" ++ outputFileName s writtenAt)%string /\
  forall mode, filePrefixOf mode <> filePrefixOf (readerMode env) ->
               isStatsFile mode (outputFileName s writtenAt, time) = false.
Proof.
  intros Hw Hin Hnewest.
  pose proof (written_kind env chain dateNow s Hw) as Hkind.
  assert (Hmine : isStatsFile (readerMode env) (outputFileName s writtenAt, time) = true).
  { rewrite outputFileName_isStatsFile, <- Hkind. apply String.eqb_refl. }
  split.
  - pose proof (getLatestStatsFile_spec dataDir (Some entries) (readerMode env)) as Hspec.
    destruct (getLatestStatsFile dataDir (Some entries) (readerMode env))
      as [error | path].
    + destruct Hspec as [[Hnone _] | (entries' & [= <-] & Hnone & _)]; [discriminate |].
      rewrite (Hnone _ Hin) in Hmine. discriminate.
    + destruct Hspec as (entries' & name & t & [= <-] & He & Hp & Hs & -> & Hmax).
      assert (Hok : isStatsFile (readerMode env) (name, t) = true).
      { unfold isStatsFile. simpl. now rewrite Hp, Hs. }
      destruct (Hnewest _ He Hok) as [[= -> ->] | Hlt]; [reflexivity |].
      simpl in Hlt. specialize (Hmax _ Hin Hmine). simpl in Hmax. lia.
  - intros mode Hne. rewrite outputFileName_isStatsFile, <- Hkind.
    now apply String.eqb_neq.
Qed.

Lemma snapshot_found_by_reader_witness :
  let s := SlashStats (snd (indexSlashEvents (querySlashed slashChain) 100 200)) in
  let entries := [ ("prover-stats-1700000000999.json"%string, 50);
                   (outputFileName s 1700000000123, 40);
                   ("slash-stats-1600000000000.json"%string, 30);
                   ("notes.txt"%string, 60) ] in
  getLatestStatsFile "data" (Some entries) "slash" =
  inr "data/slash-stats-1700000000123.json"%string.
Proof.
  intros s entries.
  refine (proj1 (snapshot_found_by_reader (sampleEnv "slash" 100) slashChain
                   1700000000000 1700000000123 s "data" entries 40 eq_refl _ _)).
  - right. left. reflexivity.
  - intros entry [<- | [<- | [<- | [<- | []]]]] H; vm_compute in H;
      try discriminate H; [left; reflexivity | right; simpl; lia].
Defined.

(** ** Recounting at display time *)

Lemma recount_filter (now : Z) (l : list PendingExit) (c n : Z) :
  fold_left (fun counts p =>
               if canFinalizeAt now p
               then (fst counts + 1, snd counts)
               else (fst counts, snd counts + 1)) l (c, n) =
  (c + len (filter (canFinalizeAt now) l),
   n + len (filter (fun p => negb (canFinalizeAt now p)) l)).
Proof.
  revert c n. induction l as [| p l IH]; intros c n; cbn [fold_left filter].
  - f_equal; unfold len; simpl; lia.
  - destruct (canFinalizeAt now p); cbn [fst snd negb];
      rewrite IH, len_cons; f_equal; lia.
Qed.

(** X20: the recount of the reader splits the pending exits of the
    snapshot in two, so its two counters add up to their number; and
    between two readings of the clock the first counter grows by exactly
    the pending exits whose exitableAt lies after the earlier and not
    after the later reading. *)
Theorem recount_flips (now now' : Z) (l : list PendingExit) :
  now <= now' ->
  fst (recount now l) + snd (recount now l) = len l /\
  fst (recount now' l) =
    fst (recount now l) +
    len (filter (fun p => (now <? numberOrNull (exitableAt (exit p))) &&
                          (numberOrNull (exitableAt (exit p)) <=? now')) l) /\
  snd (recount now' l) = len l - fst (recount now' l).
Proof.
  intros Hle. unfold recount. rewrite !recount_filter. cbn [fst snd].
  pose proof (len_filter_split (canFinalizeAt now) l) as H1.
  pose proof (len_filter_split (canFinalizeAt now') l) as H2.
  split; [lia |]. split; [| lia].
  clear H1 H2. rewrite !Z.add_0_l.
  induction l as [| p l IH]; [reflexivity |].
  cbn [filter].
  destruct (canFinalizeAt now' p) eqn:E1, (canFinalizeAt now p) eqn:E2;
    unfold canFinalizeAt in E1, E2;
    destruct (Z.ltb_spec now (numberOrNull (exitableAt (exit p))));
    destruct (Z.leb_spec (numberOrNull (exitableAt (exit p))) now');
    try discriminate E1;
    try (apply Z.leb_le in E2); try (apply Z.leb_gt in E2);
    try lia; cbn [andb]; rewrite ?len_cons; lia.
Qed.

Lemma recount_flips_witness :
  let p := mkPendingExit addr1
             (mkInitiatedDetail addr3 "500" (sampleTx 1) 100
                (Some 1000000) (Some 2209600) false) in
  fst (recount 2209599 [p]) + snd (recount 2209599 [p]) = 1 /\
  fst (recount 2209600 [p]) = fst (recount 2209599 [p]) + 1.
Proof.
  intros p.
  destruct (recount_flips 2209599 2209600 [p] ltac:(lia)) as (Hsum & Hflip & _).
  split; [exact Hsum | exact Hflip].
Defined.

(** The flag stored with a pending exit whose exitableAt is a number is
    the comparison the reader makes at the time of the scan. *)
Lemma stored_flag_recomputed (now : Z) (ts : jsobj Z Z) (inits fins : list WithdrawLog) :
  (forall e, In e inits -> get Z.eqb ts (w_blockNumber e) <> None) ->
  Forall (fun p => canFinalizeAt now p = canFinalize (exit p))
    (pendingOfAttesters (Object_values (buildAttesterStats now ts inits fins))).
Proof.
  intros Hknown. rewrite pendingOfAttesters_events. apply Forall_forall.
  intros p Hp. apply in_flat_map in Hp. destruct Hp as (k & _ & Hp).
  apply in_map_iff in Hp. destruct Hp as (e & <- & He).
  unfold pendingEventsOf, lastn in He. apply In_skipn in He.
  unfold withdrawalsOf, eventsOf in He. apply filter_In in He. destruct He as [He _].
  specialize (Hknown e He).
  unfold canFinalizeAt, initiatedDetailOf. simpl.
  destruct (get Z.eqb ts (w_blockNumber e)); [reflexivity | congruence].
Qed.

(** X21: read at the time of the scan, a snapshot written with a provider
    that answers a lookup with the block asked for is recounted to the
    counters it stores; and at any time the two recounted numbers add up
    to its totalPending. *)
Theorem recount_agrees_with_snapshot (qi qf : Z -> Z -> outcome (list WithdrawLog))
  (getBlock_ : Z -> outcome Block) (dateNow fromBlock toBlock : Z) (out : ExitOutput) :
  er_result (indexExitEvents qi qf getBlock_ dateNow fromBlock toBlock) = Resolved out ->
  (forall bn b, getBlock_ bn = Resolved b -> block_number b = bn) ->
  recount (eo_currentTimestamp out) (eo_pendingExits out) =
    (eo_pendingCanFinalize out, eo_pendingCannotFinalize out) /\
  forall now, fst (recount now (eo_pendingExits out)) +
              snd (recount now (eo_pendingExits out)) = eo_totalPending out.
Proof.
  intros Hrun Hfaith. unfold indexExitEvents in Hrun.
  set (scan := scanExits qi qf fromBlock toBlock) in *.
  pose proof (resolveTimestamps_covers getBlock_ (initiatedEvents scan)) as Hcov.
  destruct (resolveTimestamps getBlock_ (initiatedEvents scan)) as [[ts | m] issued];
    simpl in Hrun; [| discriminate].
  injection Hrun as <-. specialize (Hcov ts).
  assert (Hflags := stored_flag_recomputed (dateNow / 1000) ts
                      (initiatedEvents scan) (finalizedEvents scan)).
  unfold exitOutput. simpl. rewrite summarize_totals. simpl.
  set (pend := pendingOfAttesters _) in *.
  assert (Hstored : forall p, In p pend ->
             canFinalizeAt (dateNow / 1000) p = canFinalize (exit p)).
  { apply Forall_forall, Hflags. intros e He.
    destruct (Hcov e eq_refl Hfaith He) as (T & _ & ->). discriminate. }
  split.
  - unfold recount. rewrite recount_filter. cbn [fst snd]. rewrite !Z.add_0_l.
    rewrite !(len_perm _ _ (Permutation_filter _ _ _ (sort_perm byExitableAt pend))).
    f_equal; f_equal; apply filter_ext_in; intros p Hp; now rewrite (Hstored p Hp).
  - intros now. unfold recount. rewrite recount_filter. cbn [fst snd].
    rewrite !Z.add_0_l, sort_length, <- (sort_length byExitableAt pend).
    apply len_filter_split.
Qed.

Lemma recount_agrees_with_snapshot_witness :
  let out := exitOutput 1700000000000
               [(101, 1001212); (102, 1001224); (105, 1001260)]
               (mkExitScan timelineLogs [] []) 100 200 in
  recount (eo_currentTimestamp out) (eo_pendingExits out) =
  (eo_pendingCanFinalize out, eo_pendingCannotFinalize out).
Proof.
  intros out.
  refine (proj1 (recount_agrees_with_snapshot (queryWithdrawInitiated timelineChain)
                   (queryWithdrawFinalized timelineChain) (getBlock timelineChain)
                   1700000000000 100 200 out eq_refl _)).
  intros bn b H. injection H as <-. reflexivity.
Defined.

(** ** Days left *)

(** X22: a line of the pending-exit timeline says CAN FINALIZE exactly
    when exitableAt is not after the clock; otherwise it shows a number of
    days d, at least 1, with exitableAt more than d - 1 and at most d days
    away; for an exit initiated not after the clock d is at most 14. *)
Theorem days_left_bounds (now : Z) (p : PendingExit) :
  let x := numberOrNull (exitableAt (exit p)) in
  match timelineStatus now p with
  | CanFinalize => x <= now
  | DaysLeft d =>
      now < x /\ 1 <= d /\ (d - 1) * 86400 < x - now <= d * 86400 /\
      forall T, x = T + EXIT_DELAY_SECONDS -> T <= now -> d <= 14
  end.
Proof.
  intros x. unfold timelineStatus, canFinalizeAt. fold x.
  destruct (Z.leb_spec x now) as [Hle | Hgt]; [exact Hle |].
  unfold daysLeft. fold x.
  change (24 * 60 * 60) with 86400.
  pose proof (Z.div_mod (- (x - now)) 86400 ltac:(lia)) as Hdm.
  pose proof (Z.mod_pos_bound (- (x - now)) 86400 ltac:(lia)) as Hr.
  set (q := (- (x - now)) / 86400) in *.
  set (r := (- (x - now)) mod 86400) in *.
  repeat split; try lia.
  intros T HT Hle. change EXIT_DELAY_SECONDS with 1209600 in HT. lia.
Qed.

(** ** The first version of the indexer *)

(** X23: the proof-only first version of the indexer ends as the current
    one does when the mode is neither exit nor slash: same exit code, same
    error lines, same snapshot. *)
Theorem main_extends_legacy (env : Env) (chain : Chain) (dateNow : Z) :
  MODE env <> "exit"%string -> MODE env <> "slash"%string ->
  main env chain dateNow = mainLegacy env chain.
Proof.
  intros He Hs. unfold main, mainLegacy, EXIT_MODE, SLASH_MODE.
  apply String.eqb_neq in He, Hs. rewrite He, Hs.
  destruct (notSet (SEPOLIA_RPC_URL env)); [reflexivity |].
  destruct (notSet (ROLLUP_CONTRACT_ADDRESS env)); [reflexivity |].
  destruct (getBlockNumber chain); reflexivity.
Qed.

Lemma main_extends_legacy_witness :
  main (sampleEnv "proofs" 100) proofChain 1700000000000 =
  mainLegacy (sampleEnv "proofs" 100) proofChain.
Proof.
  apply main_extends_legacy; discriminate.
Defined.
